(** * soft404.train: a shallow embedding of the training pipeline

    The development follows [soft404/train.py].  Python values are
    modelled as the code uses them: a [str] is a sequence of Unicode code
    points, an item is a record of the keys the code reads, [set] and
    [dict] objects are finite sets and maps, mutable lists live in a heap
    of references, and a failing [assert] or a missing file is an error
    result. *)

From Stdlib Require Import ZArith NArith List String Ascii Bool Lia.
From Stdlib Require Import Sorting.Permutation.
From stdpp Require Import base option list sorting gmap sets strings.

Set Default Proof Using "Type".
Local Open Scope nat_scope.

(** ** Python strings *)

Module Text.

(** A Python 3 [str] is a sequence of code points. *)
Definition codepoint := N.
Definition str := list codepoint.

(** A string literal of the source, as a [str]. *)
Definition lit (s : string) : str :=
  N_of_ascii <$> list_ascii_of_string s.

(** [sep.join(parts)] *)
Fixpoint join (sep : str) (parts : list str) : str :=
  match parts with
  | [] => []
  | [p] => p
  | p :: ps => p ++ sep ++ join sep ps
  end.

(** The alphanumeric code points of the ASCII range; the Unicode table
    of the interpreter extends it. *)
Definition ascii_alnum (c : codepoint) : bool :=
  ((48 <=? c) && (c <=? 57) || (65 <=? c) && (c <=? 90)
   || (97 <=? c) && (c <=? 122))%N.

Definition agrees_on_ascii (alnum : codepoint → bool) : Prop :=
  ∀ c, (c < 128)%N → alnum c = ascii_alnum c.

End Text.

(** ** Regular expressions: the fragment [token_pattern] is written in *)

Module Regex.
Import Text.

Section Engine.
(** The interpreter's table of alphanumeric code points
    ([str.isalnum] of a single character), used because the pattern
    is compiled with the [re.U] flag. *)
Variable unicode_alnum : codepoint → bool.

Definition underscore : codepoint := 95%N.

(** [\w] under [re.U]: alphanumeric, or the underscore. *)
Definition uni_is_word (c : codepoint) : bool :=
  unicode_alnum c || (c =? underscore)%N.

Inductive piece :=
| Boundary                           (* \b *)
| One (cls : codepoint → bool)       (* [...] *)
| OneOrMore (cls : codepoint → bool) (* [...]+ , greedy *).

Definition pattern := list piece.

(** [\b] holds between a word character and a non-word character,
    the two ends of the text counting as non-word. *)
Definition at_boundary (prev : option codepoint) (s : str) : bool :=
  xorb (from_option uni_is_word false prev)
       (from_option uni_is_word false (head s)).

(** Backtracking match of [ps] at the current position: [prev] is the
    character before it, [s] the text from it on.  The result is the
    length of the match.  A greedy [+] first tries one more
    repetition and falls back to the rest of the pattern. *)
Fixpoint match_here (ps : pattern) (prev : option codepoint) (s : str)
    {struct ps} : option nat :=
  match ps with
  | [] => Some 0
  | Boundary :: ps' =>
      if at_boundary prev s then match_here ps' prev s else None
  | One cls :: ps' =>
      match s with
      | c :: s' =>
          if cls c then S <$> match_here ps' (Some c) s' else None
      | [] => None
      end
  | OneOrMore cls :: ps' =>
      (fix more (prev : option codepoint) (s : str) : option nat :=
         match s with
         | c :: s' =>
             if cls c then
               S <$> (match more (Some c) s' with
                      | Some n => Some n
                      | None => match_here ps' (Some c) s'
                      end)
             else None
         | [] => None
         end) prev s
  end.

(** The scan of [re.findall] for a pattern without groups: try the
    pattern at the current position; on a match emit the matched
    text and go on after it (one further on after an empty match);
    otherwise move one character on.  [fuel] bounds the number of
    positions tried. *)
Fixpoint scan (fuel : nat) (ps : pattern) (prev : option codepoint)
    (s : str) : list str :=
  match fuel with
  | 0 => []
  | S fuel' =>
      match match_here ps prev s with
      | Some (S n) =>
          take (S n) s
            :: scan fuel' ps (last (take (S n) s)) (drop (S n) s)
      | Some 0 =>
          [] :: match s with
                | [] => []
                | c :: s' => scan fuel' ps (Some c) s'
                end
      | None =>
          match s with
          | [] => []
          | c :: s' => scan fuel' ps (Some c) s'
          end
      end
  end.

Definition findall (ps : pattern) (s : str) : list str :=
  scan (S (length s)) ps None s.
End Engine.

End Regex.

(** ** Tokens *)

Module Tokenizer.
Import Text Regex.

Section Tokens.
Variable unicode_alnum : codepoint → bool.

(** The class [[_\w]]. *)
Definition underscore_or_word (c : codepoint) : bool :=
  (c =? underscore)%N || uni_is_word unicode_alnum c.

(** [token_pattern = r"(?u)\b[_\w][_\w]+\b"] *)
Definition token_pattern : pattern :=
  [Boundary; One underscore_or_word; OneOrMore underscore_or_word;
   Boundary].

(** [tokenize(text) = re.findall(token_pattern, text, re.U)] *)
Definition tokenize (text : str) : list str :=
  findall unicode_alnum token_pattern text.

(** What the specification says the tokens are: the maximal runs of
    word-constituent characters, those of length at least 2, in order
    of occurrence. *)
Definition word_constituent (c : codepoint) : bool :=
  unicode_alnum c || (c =? underscore)%N.

Definition flush (run : str) : list str :=
  match run with [] => [] | _ => [run] end.

(** [run] is the run being read, in reading order. *)
Fixpoint maximal_runs_from (run : str) (s : str) : list str :=
  match s with
  | [] => flush run
  | c :: s' =>
      if word_constituent c then maximal_runs_from (run ++ [c]) s'
      else flush run ++ maximal_runs_from [] s'
  end.

Definition maximal_runs (s : str) : list str := maximal_runs_from [] s.

Definition spec_tokens (s : str) : list str :=
  filter (λ r, 2 ≤ length r) (maximal_runs s).

(** The same, said by position: [r] is a non-empty stretch of word
    constituents of [s] with no word constituent right before or right
    after it. *)
Definition is_maximal_run (s r : str) : Prop :=
  ∃ pre post,
    s = pre ++ r ++ post ∧ r ≠ []
    ∧ Forall (λ c, word_constituent c = true) r
    ∧ from_option word_constituent false (last pre) = false
    ∧ from_option word_constituent false (head post) = false.

(** The longest prefix of word-constituent characters, and what
    follows it. *)
Fixpoint word_prefix (s : str) : str :=
  match s with
  | c :: s' => if word_constituent c then c :: word_prefix s' else []
  | [] => []
  end.

Fixpoint after_word_prefix (s : str) : str :=
  match s with
  | c :: s' => if word_constituent c then after_word_prefix s' else s
  | [] => []
  end.
End Tokens.
End Tokenizer.

(** ** Items, errors and the state the program runs in *)

Module Runtime.
Import Text.

(** One crawled page: the keys of the item dictionary that the code
    reads.  ['blocks'] may be absent ([item.get('blocks', [])]).  The
    value stored under ['idx'] in the file, if any, is overwritten at
    read time. *)
Record item := Item {
  idx : nat;
  url : str;
  status : Z;
  lang : option str;
  text : str;
  title : str;
  blocks : option (list (str * str))
}.

(** [item['idx'] = i] *)
Definition set_idx (it : item) (i : nat) : item :=
  {| idx := i; url := url it; status := status it; lang := lang it;
     text := text it; title := title it; blocks := blocks it |}.

Inductive error := FileNotFoundError | AssertionError.

Inductive result (A : Type) :=
| Ok (a : A)
| Raise (e : error).
Arguments Ok {A} a.
Arguments Raise {A} e.

(** References to mutable Python lists. *)
Definition loc := nat.

Inductive event :=
| Opened (filename : string)
| Closed (filename : string)
(** [clf.partial_fit(vect.transform(x), y, classes=classes)] *)
| PartialFit (x : list str) (y : list bool) (classes : list bool).

(** The state of a run: the pickled objects of each file, the mutable
    lists, the number of shuffles drawn from numpy's global generator,
    and the calls made to the outside, latest last. *)
Record state := State {
  files : gmap string (list item);
  heap : gmap loc (list nat);
  shuffles : nat;
  trace : list event
}.

Definition M (A : Type) : Type := state → result A * state.

Definition ret {A} (a : A) : M A := λ s, (Ok a, s).
Definition raise {A} (e : error) : M A := λ s, (Raise e, s).
Definition bind {A B} (m : M A) (k : A → M B) : M B :=
  λ s, match m s with
       | (Ok a, s') => k a s'
       | (Raise e, s') => (Raise e, s')
       end.
Global Instance M_ret : MRet M := @ret.
Global Instance M_bind : MBind M := λ A B k m, bind m k.

Definition get_state : M state := λ s, (Ok s, s).
Definition emit (e : event) : M unit :=
  λ s, (Ok tt, State (files s) (heap s) (shuffles s) (trace s ++ [e])).

(** [for x in xs: body(x)] *)
Fixpoint for_each {A} (xs : list A) (body : A → M unit) : M unit :=
  match xs with
  | [] => ret tt
  | x :: xs' => body x;; for_each xs' body
  end.

Definition is_partial_fit (e : event) : bool :=
  match e with PartialFit _ _ _ => true | _ => false end.

Definition partial_fits (tr : list event) : list event :=
  filter (λ e, is_partial_fit e) tr.
End Runtime.


(** ** The stream reader *)

Module Reader.
Import Text Runtime.

(** Modelled from the spec: [soft404.utils.pickle_stream_reader] is not
    among the sources.  It numbers the objects of the stream from 0 in
    read order, before any filter, and yields the pairs [(idx, item)]
    whose [idx] is in [indices], all of them when [indices] is [None]. *)
Definition wanted (indices : option (gset nat)) (i : nat) : bool :=
  match indices with
  | None => true
  | Some chosen => bool_decide (i ∈ chosen)
  end.

Definition pickle_stream_reader (objs : list item)
    (indices : option (gset nat)) : list (nat * item) :=
  filter (λ p, wanted indices p.1) (imap (λ i it, (i, it)) objs).

Definition status_ok (it : item) : bool :=
  ((status it =? 200) || (status it =? 404))%Z.

Definition reached (limit : option Z) (i : nat) : bool :=
  match limit with
  | Some l => (l <=? Z.of_nat i)%Z
  | None => false
  end.

(** The loop of [file_reader], run to the end of the generator. *)
Fixpoint read_loop (limit : option Z) (pairs : list (nat * item))
    : list item :=
  match pairs with
  | [] => []
  | (i, it) :: rest =>
      if reached limit i then []                      (* break *)
      else
        let it := set_idx it i in
        if status_ok it then it :: read_loop limit rest
        else read_loop limit rest
  end.

(** [file_reader(filename, indices, limit)], consumed to the end. *)
Definition file_reader (filename : string) (indices : option (gset nat))
    (limit : option Z) : M (list item) :=
  s ← get_state;
  match files s !! filename with
  | None => raise FileNotFoundError
  | Some objs =>
      emit (Opened filename);;
      let items := read_loop limit (pickle_stream_reader objs indices) in
      emit (Closed filename);;
      ret items
  end.

(** What a pass yields, object by object: the object at position [k]
    of the stream appears, numbered [k], when [k] is below the limit,
    is among the chosen indices and has status 200 or 404. *)
Fixpoint yielded_from (limit : option Z) (indices : option (gset nat))
    (k : nat) (objs : list item) : list item :=
  match objs with
  | [] => []
  | it :: rest =>
      (if negb (reached limit k) && wanted indices k && status_ok it
       then [set_idx it k] else [])
      ++ yielded_from limit indices (S k) rest
  end.

(** The [idx] values of the outcome of a pass. *)
Definition idx_values (r : result (list item)) : result (list nat) :=
  match r with
  | Ok items => Ok (idx <$> items)
  | Raise e => Raise e
  end.

(** [get_lang_indices(reader, only_lang)]; the printed statistics are
    left out. *)
Definition get_lang_indices (reader : option (gset nat) → M (list item))
    (only_lang : str) : M (gset nat) :=
  items ← reader None;
  let langs := (λ it, (idx it, lang it)) <$> items in
  ret (list_to_set
         ((filter (λ p, p.2 = Some only_lang) langs).*1)).

(** [data_iter(reader, flt_indices, indices)] *)
Definition data_iter (reader : option (gset nat) → M (list item))
    (flt_indices : option (gset nat)) (indices : option (list nat))
    : M (list item) :=
  let indices : option (gset nat) :=
    match flt_indices with
    | Some flt =>
        match indices with
        | None => Some flt
        | Some l => Some (list_to_set l ∩ flt)
        end
    | None => list_to_set <$> indices
    end in
  reader indices.
End Reader.

(** ** The text featurizer *)

Module Featurizer.
Import Text Tokenizer Runtime.

Section WithTable.
Variable unicode_alnum : codepoint → bool.

(** ['__title__{}'.format(w)] *)
Definition title_marker (w : str) : str := lit "__title__" ++ w.

(** ['__{}__{}'.format(tag, w)] *)
Definition tag_marker (tag w : str) : str :=
  lit "__" ++ tag ++ lit "__" ++ w.

(** [item_to_text(item)]: [text] is the list the code extends. *)
Definition item_to_text (it : item) : str :=
  let text := [Runtime.text it] in
  let text :=
    if bool_decide (title it ≠ []) then
      text ++ (title_marker <$> tokenize unicode_alnum (title it))
    else text in
  let text :=
    foldl (λ text '(tag, block_text),
             text ++ (tag_marker tag <$> tokenize unicode_alnum block_text))
          text (default [] (blocks it)) in
  join (lit " ") text.

(** [item['status'] == 404] *)
Definition label (it : item) : bool := bool_decide (status it = 404%Z).

(** [get_xy(items)] and [get_xy(items, only_ys=True)] *)
Definition get_xy (items : list item) : list str * list bool :=
  foldl (λ '(xs, ys) it, (xs ++ [item_to_text it], ys ++ [label it]))
        ([], []) items.

Definition get_ys (items : list item) : list bool :=
  foldl (λ ys it, ys ++ [label it]) [] items.
End WithTable.
End Featurizer.

(** ** Resolving logical ids *)

Module Resolve.
Import Text Runtime.

(** [to_data_idx(indices, urls)]: [urls] holds the pairs
    [(data_idx, url)], a logical id is a position in it. *)
Definition to_data_idx (indices : list Z) (urls : list (nat * str))
    : result (list nat) :=
  let indices : gset Z := list_to_set indices in
  let result :=
    (λ p : nat * (nat * str), p.2.1)
      <$> filter (λ p : nat * (nat * str), Z.of_nat p.1 ∈ indices)
                 (imap (λ idx u, (idx, u)) urls) in
  if decide (length result = size indices) then Ok result
  else Raise AssertionError.

Definition lift {A} (r : result A) : M A := λ s, (r, s).
End Resolve.

(** ** Grouped folds *)

Module Folds.

Section Split.
Context {L : Type} `{EqDecision L}.

(** The fold in whose test split the whole group of a label goes. *)
Variable assign : L → nat.

Definition test_positions (labels : list L) (f : nat) : list nat :=
  (filter (λ p : nat * L, assign p.2 = f)
          (imap (λ i l, (i, l)) labels)).*1.

Definition train_positions (labels : list L) (f : nat) : list nat :=
  (filter (λ p : nat * L, assign p.2 ≠ f)
          (imap (λ i l, (i, l)) labels)).*1.

(** Modelled from the spec: [sklearn.cross_validation.LabelKFold] is
    not among the sources.  Iterating over it yields, for each fold
    [f] below [n_folds], the positions whose label is not assigned to
    [f] (train) and those whose label is (test): identities are
    grouped by label and whole groups are distributed over the
    folds. *)
Definition LabelKFold (labels : list L) (n_folds : nat)
    : list (list nat * list nat) :=
  (λ f, (train_positions labels f, test_positions labels f))
    <$> seq 0 n_folds.
End Split.

Section Lightest.
Context {L : Type} `{EqDecision L}.

(** [np.argmin]: the first position of the least weight. *)
Definition lightest (weights : list nat) : nat :=
  default 0
    (fst <$> list_find (λ w, w = foldr Nat.min (default 0 (head weights)) weights)
                       weights).

Definition group_size (labels : list L) (l : L) : nat :=
  length (filter (λ l', l' = l) labels).

(** Modelled from the spec: one deterministic distribution of the
    groups, which the spec leaves free: each group in turn, in order
    of first occurrence, goes to the fold that holds the fewest
    identities so far. *)
Definition distribute (labels : list L) (n_folds : nat)
    : list (L * nat) :=
  (foldl (λ '(weights, chosen) l,
            let f := lightest weights in
            (alter (λ w, w + group_size labels l) f weights,
             chosen ++ [(l, f)]))
         (replicate n_folds 0, []) (remove_dups labels)).2.

Definition label_to_fold (labels : list L) (n_folds : nat) (l : L) : nat :=
  default 0 ((λ r : nat * (L * nat), r.2.2)
               <$> list_find (λ p : L * nat, p.1 = l)
                             (distribute labels n_folds)).
End Lightest.
End Folds.

(** ** The incremental trainer *)

Module Trainer.
Import Text Runtime Reader Featurizer.

(** Modelled from the spec: [soft404.utils.batches] is not among the
    sources.  It cuts the list into consecutive batches of [size]
    elements; no batch is empty, the last one may be partly filled. *)
Fixpoint batches_from {A} (fuel : nat) (lst : list A) (size : nat)
    : list (list A) :=
  match fuel with
  | 0 => []
  | S fuel' =>
      match lst with
      | [] => []
      | _ => take size lst :: batches_from fuel' (drop size lst) size
      end
  end.

Definition batches {A} (lst : list A) (size : nat) : list (list A) :=
  match size with
  | 0 => []
  | _ => batches_from (length lst) lst size
  end.

Section Training.
Variable unicode_alnum : codepoint → bool.

(** numpy's global generator: the rearrangement that the [n]-th
    shuffle of the run applies. *)
Variable shuffle_oracle : nat → list nat → list nat.

(** [np.random.shuffle(lst)]: in place. *)
Definition np_random_shuffle (r : loc) : M unit :=
  λ s, (Ok tt,
        State (files s) (alter (shuffle_oracle (shuffles s)) r (heap s))
              (S (shuffles s)) (trace s)).

Definition read_list (r : loc) : M (list nat) :=
  λ s, (Ok (default [] (heap s !! r)), s).

(** A new list object. *)
Definition new_list (l : list nat) : M loc :=
  λ s, let r := fresh (dom (heap s)) in
       (Ok r, State (files s) (<[r := l]> (heap s)) (shuffles s) (trace s)).

(** [train_clf(clf, vect, data, train_idx, classes, n_epochs, batch_size)] *)
Definition train_clf (data : option (list nat) → M (list item))
    (train_idx : loc) (classes : list bool) (n_epochs batch_size : nat)
    : M unit :=
  for_each (seq 0 n_epochs) (λ epoch,
    np_random_shuffle train_idx;;
    lst ← read_list train_idx;
    for_each (batches lst batch_size) (λ indices,
      items ← data (Some indices);
      let '(_x, _y) := get_xy unicode_alnum items in
      emit (PartialFit _x _y classes))).

Definition default_n_epochs : nat := 2.
Definition default_batch_size : nat := 5000.

(** [check_class_weights(classes, data, train_idx, test_y)]: the
    result is the labels whose class weights are printed. *)
Definition check_class_weights (classes : list bool)
    (data : option (list nat) → M (list item)) (train_idx : loc)
    (test_y : list bool) : M (list bool) :=
  np_random_shuffle train_idx;;
  lst ← read_list train_idx;
  items ← data (Some (take 1000 lst));
  mret (get_ys items).
End Training.
End Trainer.

(** ** The driver *)

Module Driver.
Import Text Runtime Reader Featurizer Resolve Folds Trainer.

Section Main.
Variable unicode_alnum : codepoint → bool.
(** [tldextract.extract(url).registered_domain.lower()] *)
Variable get_domain : str → str.
Variable shuffle_oracle : nat → list nat → list nat.
(** The distribution of domain groups that [LabelKFold] computes. *)
Variable assign : str → nat.

(** [partial(file_reader, filename=..., limit=...)] *)
Definition reader (filename : string) (limit : option Z)
    : option (gset nat) → M (list item) :=
  λ indices, file_reader filename indices limit.

(** [check_domains(data, train_idx, test_idx)]: the domains counted
    for the train and for the test data. *)
Definition check_domains (data : option (list nat) → M (list item))
    (train_idx test_idx : list nat) : M (list str * list str) :=
  train ← data (Some train_idx);
  test ← data (Some test_idx);
  mret ((λ it, get_domain (url it)) <$> train,
        (λ it, get_domain (url it)) <$> test).

(** [main], from the reader to the list [urls]: the language filter,
    the pairs [(idx, url)] and the pass that fits the vectorizer. *)
Definition prepare (filename : string) (lang : str) (limit : option Z)
    : M (option (gset nat) * list (nat * str)) :=
  let reader := reader filename limit in
  flt_indices ←
    (if bool_decide (lang ≠ []) then
       flt ← get_lang_indices reader lang; mret (Some flt)
     else mret None);
  let data := data_iter reader flt_indices in
  items ← data None;
  let urls := (λ it, (idx it, url it)) <$> items in
  texts ← data None;
  mret (flt_indices, urls).

(** The first two assignments of [eval_clf]. *)
Definition resolve_fold (urls : list (nat * str))
    (fold : list nat * list nat) : result (list nat * list nat) :=
  match to_data_idx (Z.of_nat <$> fold.1) urls with
  | Raise e => Raise e
  | Ok train_idx =>
      match to_data_idx (Z.of_nat <$> fold.2) urls with
      | Raise e => Raise e
      | Ok test_idx => Ok (train_idx, test_idx)
      end
  end.

Fixpoint resolve_folds (urls : list (nat * str))
    (lkf : list (list nat * list nat))
    : result (list (list nat * list nat)) :=
  match lkf with
  | [] => Ok []
  | fold :: rest =>
      match resolve_fold urls fold with
      | Raise e => Raise e
      | Ok r =>
          match resolve_folds urls rest with
          | Raise e => Raise e
          | Ok rs => Ok (r :: rs)
          end
      end
  end.

(** [main] up to the folds handed to the evaluator, each resolved to
    dataset ids as [eval_clf] does first. *)
Definition main_folds (filename : string) (lang : str)
    (limit : option Z) (n_folds : nat)
    : M (option (gset nat) * list (nat * str)
         * list (list nat * list nat)) :=
  '(flt_indices, urls) ← prepare filename lang limit;
  let lkf := LabelKFold assign (get_domain <$> urls.*2) n_folds in
  folds ← lift (resolve_folds urls lkf);
  mret (flt_indices, urls, folds).

Definition default_n_folds : nat := 10.

(** [eval_clf] up to the end of training; scoring belongs to the
    classifier.  The result is the list object holding the train
    ids, and the test texts and labels. *)
Definition eval_clf (fold_idx : nat) (fold : list nat * list nat)
    (data : option (list nat) → M (list item))
    (urls : list (nat * str)) (classes : list bool)
    : M (loc * (list str * list bool)) :=
  train_idx ← lift (to_data_idx (Z.of_nat <$> fold.1) urls);
  test_idx ← lift (to_data_idx (Z.of_nat <$> fold.2) urls);
  train_idx ← new_list train_idx;
  items ← data (Some test_idx);
  let test := get_xy unicode_alnum items in
  (if bool_decide (fold_idx = 0) then
     check_class_weights shuffle_oracle classes data train_idx test.2;;
     lst ← read_list train_idx;
     check_domains data lst test_idx;;
     mret tt
   else mret tt);;
  train_clf unicode_alnum shuffle_oracle data train_idx classes
            default_n_epochs default_batch_size;;
  mret (train_idx, test).
End Main.
End Driver.

(** ** Aggregating the metrics of the folds *)

Module Aggregate.
Import Text.

(** Python's order on strings: lexicographic on code points. *)
Fixpoint str_leb (a b : str) : bool :=
  match a, b with
  | [], _ => true
  | _ :: _, [] => false
  | x :: a', y :: b' =>
      if (x <? y)%N then true
      else if (x =? y)%N then str_leb a' b' else false
  end.

Section Report.
(** Python floats and numpy's functions on them. *)
Variable float : Type.
Variables np_mean np_std : list float → float.
Variable fmul : float → float → float.
Variable two : float.

(** [all_metrics[k].append(v)] on a [defaultdict(list)] *)
Definition append_metric (all_metrics : gmap str (list float))
    (kv : str * float) : gmap str (list float) :=
  <[kv.1 := default [] (all_metrics !! kv.1) ++ [kv.2]]> all_metrics.

(** The loop over the metric mappings, in order of arrival; a
    mapping is the list of its items. *)
Definition collect (arrivals : list (list (str * float)))
    : gmap str (list float) :=
  foldl (λ all_metrics eval_metrics,
           foldl append_metric all_metrics eval_metrics)
        ∅ arrivals.

Definition key_le (a b : str * list float) : Prop :=
  str_leb a.1 b.1 = true.

Global Instance key_le_dec : RelDecision key_le :=
  λ a b, decide (str_leb a.1 b.1 = true).

(** The lines printed: name, [np.mean(v)], [np.std(v) * 2]. *)
Definition report (arrivals : list (list (str * float)))
    : list (str * float * float) :=
  (λ kv : str * list float,
     (kv.1, np_mean kv.2, fmul (np_std kv.2) two))
    <$> merge_sort key_le (map_to_list (collect arrivals)).
End Report.
End Aggregate.

(** ** Views of the data, used to state the properties *)

Module Views.
Import Text Runtime Reader.

(** A list with the positions of its elements. *)
Definition numbered {A} (l : list A) : list (nat * A) :=
  imap (λ i x, (i, x)) l.

(** A logical id that is a position of [urls]. *)
Definition valid_id (urls : list (nat * str)) (i : Z) : Prop :=
  (0 ≤ i < Z.of_nat (length urls))%Z.

Global Instance valid_id_dec urls i : Decision (valid_id urls i) :=
  decide ((0 ≤ i)%Z ∧ (i < Z.of_nat (length urls))%Z).

(** The positions that [to_data_idx] selects. *)
Definition selected (ids : gset Z) (urls : list (nat * str))
    : list (nat * (nat * str)) :=
  filter (λ p : nat * (nat * str), Z.of_nat p.1 ∈ ids) (numbered urls).

(** The state after a file was opened, read and closed. *)
Definition touch (filename : string) (s : state) : state :=
  State (files s) (heap s) (shuffles s)
        (trace s ++ [Opened filename] ++ [Closed filename]).

(** The indices that a call of [data] hands to the reader. *)
Definition passed (flt : option (gset nat)) (ids : option (list nat))
    : option (gset nat) :=
  match flt with
  | Some flt =>
      match ids with
      | None => Some flt
      | Some l => Some (list_to_set l ∩ flt)
      end
  | None => list_to_set <$> ids
  end.

(** The index set of a language among the objects of a file. *)
Definition lang_indices (limit : option Z) (only_lang : str)
    (objs : list item) : gset nat :=
  list_to_set
    ((filter (λ p : nat * option str, p.2 = Some only_lang)
             ((λ it, (idx it, lang it))
                <$> yielded_from limit None 0 objs)).*1).

Definition language_filter (limit : option Z) (only_lang : str)
    (objs : list item) : option (gset nat) :=
  if bool_decide (only_lang ≠ []) then
    Some (lang_indices limit only_lang objs)
  else None.

(** The retained items of a file and their [(idx, url)] pairs. *)
Definition retained (limit : option Z) (only_lang : str)
    (objs : list item) : list item :=
  yielded_from limit (language_filter limit only_lang objs) 0 objs.

Definition retained_urls (limit : option Z) (only_lang : str)
    (objs : list item) : list (nat * str) :=
  (λ it, (idx it, url it)) <$> retained limit only_lang objs.

(** The values reported under a metric name by the folds, in order of
    arrival. *)
Definition values_of {V} (arrivals : list (list (str * V))) (k : str)
    : list V :=
  (filter (λ kv : str * V, kv.1 = k) (concat arrivals)).*2.

(** The mapping that [eval_clf] returns, as the list of its items. *)
Definition fold_metrics {V} (sc : V * V) : list (str * V) :=
  [(lit "F1", sc.1); (lit "AUC", sc.2)].

Section Shuffles.
Variable shuffle_oracle : nat → list nat → list nat.

(** A list after [n] shuffles, the first of which is the [k]-th of
    the run. *)
Fixpoint shuffled (k n : nat) (l : list nat) : list nat :=
  match n with
  | 0 => l
  | S n' => shuffled (S k) n' (shuffle_oracle k l)
  end.

(** The number of batches cut in [n] epochs. *)
Fixpoint batch_count (k n : nat) (l : list nat) (size : nat) : nat :=
  match n with
  | 0 => 0
  | S n' =>
      length (Trainer.batches (shuffle_oracle k l) size)
      + batch_count (S k) n' (shuffle_oracle k l) size
  end.
End Shuffles.

Section Groups.
Variable get_domain : str → str.
Variable assign : str → nat.

(** The fold that tests an entry of [urls]. *)
Definition fold_of (u : nat * str) : nat := assign (get_domain u.2).

Definition train_ids (urls : list (nat * str)) (f : nat) : list nat :=
  (filter (λ u, fold_of u ≠ f) urls).*1.

Definition test_ids (urls : list (nat * str)) (f : nat) : list nat :=
  (filter (λ u, fold_of u = f) urls).*1.
End Groups.
End Views.

(** ** A small dataset to run the definitions on *)

Module Sample.
Import Text Runtime.

Definition page (u : string) (st : Z) (lg body ttl : string) : item :=
  Item 0 (lit u) st (Some (lit lg)) (lit body) (lit ttl)
       (Some [(lit "h1", lit ttl)]).

Definition pages : list item :=
  [ page "a.com/1" 200 "en" "welcome home" "Home";
    page "a.com/2" 404 "en" "page not found" "Oops";
    page "b.org/x" 500 "en" "server error" "Error";
    page "b.org/y" 200 "de" "guten tag" "Hallo";
    page "c.net/z" 404 "en" "nothing here" "Missing";
    page "b.org/w" 200 "en" "about us" "About" ].

(** The file, and one list object holding train ids. *)
Definition state : state :=
  State {[ "pages.pkl"%string := pages ]} {[ 0 := [0; 1; 5] ]} 0 [].

(** A registered-domain extractor for urls without scheme or
    subdomain: what stands before the first slash. *)
Fixpoint domain (u : str) : str :=
  match u with
  | [] => []
  | c :: u' => if (c =? 47)%N then [] else c :: domain u'
  end.

(** The domain labels of the retained English pages, and their
    distribution over two folds. *)
Definition labels : list str :=
  [lit "a.com"; lit "a.com"; lit "c.net"; lit "b.org"].

Definition assign : str → nat := Folds.label_to_fold labels 2.

(** A generator whose shuffles move the first element to the end. *)
Definition rotating : nat → list nat → list nat :=
  λ _ l, drop 1 l ++ take 1 l.
End Sample.

(** ** Domain statistics *)

Module Stats.
Import Text Runtime Reader.

Section Counter.
Context {K : Type} `{EqDecision K}.

(** A [collections.Counter]: its items, in order of first insertion. *)
Local Abbreviation counter := (list (K * nat)).

(** [c[k] += n]: a missing key counts 0 and is inserted last. *)
Fixpoint counter_add (c : counter) (k : K) (n : nat) : counter :=
  match c with
  | [] => [(k, n)]
  | (k', m) :: c' =>
      if decide (k' = k) then (k', m + n) :: c'
      else (k', m) :: counter_add c' k n
  end.

(** [c[k]], which is 0 for a missing key. *)
Fixpoint counter_get (c : counter) (k : K) : nat :=
  match c with
  | [] => 0
  | (k', m) :: c' => if decide (k' = k) then m else counter_get c' k
  end.

(** [Counter(iterable)] *)
Definition counter_of (l : list K) : counter :=
  foldl (λ c k, counter_add c k 1) [] l.

(** [c.most_common(n)]: the items by count, largest first, those of
    equal count in order of insertion; the first [n] of them. *)
Fixpoint insert_by_count (x : K * nat) (l : counter) : counter :=
  match l with
  | [] => [x]
  | y :: l' =>
      if decide (y.2 ≤ x.2) then x :: y :: l'
      else y :: insert_by_count x l'
  end.

Definition most_common (n : nat) (c : counter) : counter :=
  take n (foldr insert_by_count [] c).

(** The sum of the counts of the keys with a property. *)
Definition total_where (P : K → Prop) `{!∀ k, Decision (P k)}
    (c : counter) : nat :=
  sum_list (filter (λ e : K * nat, P e.1) c).*2.
End Counter.

Section Show.
Variable get_domain : str → str.

(** [show_domain_stat(reader)]: the number of domains and the lines
    printed, each a domain with its count and its counts for status
    200 and 404. *)
Definition show_domain_stat (reader : option (gset nat) → M (list item))
    : M (nat * list (str * nat * nat * nat)) :=
  items ← reader None;
  let domain_status_counts : list (str * Z * nat) :=
    counter_of ((λ it, (get_domain (url it), status it)) <$> items) in
  let domain_counts : list (str * nat) :=
    foldl (λ domain_counts e, counter_add domain_counts e.1.1 e.2)
          [] domain_status_counts in
  mret (length domain_counts,
        (λ e : str * nat,
           (e.1, e.2,
            counter_get domain_status_counts (e.1, 200%Z),
            counter_get domain_status_counts (e.1, 404%Z)))
          <$> most_common 20 domain_counts).
End Show.
End Stats.
(** * Properties *)

(** ** The tokenizer *)

Section TokenizerFacts.
Import Text Regex Tokenizer.
Variable alnum : codepoint → bool.

Local Abbreviation W := (word_constituent alnum).
Local Abbreviation prev_word prev := (from_option W false prev).

Local Ltac fold_word :=
  change (uni_is_word alnum) with (word_constituent alnum) in *.

Lemma class_is_word c : underscore_or_word alnum c = W c.
Proof.
  unfold underscore_or_word, word_constituent, uni_is_word.
  destruct (alnum c), (c =? underscore)%N; reflexivity.
Qed.

Lemma uni_is_word_constituent c : uni_is_word alnum c = W c.
Proof. reflexivity. Qed.

Lemma word_prefix_split s : word_prefix alnum s ++ after_word_prefix alnum s = s.
Proof.
  induction s as [|c s IH]; simpl; [done|].
  destruct (W c); simpl; [by rewrite IH | done].
Qed.

Lemma after_word_prefix_head s :
  from_option W false (head (after_word_prefix alnum s)) = false.
Proof.
  induction s as [|c s IH]; simpl; [done|].
  destruct (W c) eqn:E; simpl; done.
Qed.

Lemma after_word_prefix_stop s :
  from_option W false (head s) = false → after_word_prefix alnum s = s.
Proof. destruct s as [|c s]; simpl; [done|]. by intros ->. Qed.

Lemma after_word_prefix_length s :
  length (after_word_prefix alnum s) ≤ length s.
Proof.
  induction s as [|c s IH]; simpl; [lia|]. destruct (W c); simpl; lia.
Qed.

Lemma match_plus_unfold cls ps prev s :
  match_here alnum (OneOrMore cls :: ps) prev s =
  match s with
  | c :: s' =>
      if cls c then
        S <$> (match match_here alnum (OneOrMore cls :: ps) (Some c) s' with
               | Some n => Some n
               | None => match_here alnum ps (Some c) s'
               end)
      else None
  | [] => None
  end.
Proof. destruct s; reflexivity. Qed.

(** The greedy [[_\w]+\b] takes the whole run of word characters in
    front of it, and needs one at least. *)
Lemma match_plus_boundary prev s :
  match_here alnum [OneOrMore (underscore_or_word alnum); Boundary] prev s =
  match word_prefix alnum s with
  | [] => None
  | r => Some (length r)
  end.
Proof.
  revert prev. induction s as [|c s IH]; intros prev.
  - reflexivity.
  - rewrite match_plus_unfold, class_is_word. simpl word_prefix.
    destruct (W c) eqn:Hc; [|done].
    rewrite IH. destruct s as [|d s]; simpl.
    + unfold at_boundary; simpl. fold_word. by rewrite Hc.
    + destruct (W d) eqn:Hd; simpl; [done|].
      unfold at_boundary; simpl. fold_word. by rewrite Hc, Hd.
Qed.

(** A match of [token_pattern] starts after a non-word character and is
    the whole run of word characters found there, when that run has
    two characters or more. *)
Lemma match_token_pattern prev s :
  match_here alnum (token_pattern alnum) prev s =
  if prev_word prev then None
  else if decide (2 ≤ length (word_prefix alnum s))
       then Some (length (word_prefix alnum s)) else None.
Proof.
  unfold token_pattern.
  change (match_here alnum (Boundary :: ?ps) prev s)
    with (if at_boundary alnum prev s then match_here alnum ps prev s else None).
  unfold at_boundary. fold_word.
  destruct s as [|c s]; simpl head; simpl from_option.
  - destruct (prev_word prev); reflexivity.
  -       change (match_here alnum (One ?cls :: ?ps) prev (c :: s))
      with (if cls c then S <$> match_here alnum ps (Some c) s else None).
    rewrite class_is_word, match_plus_boundary. simpl word_prefix.
    destruct (prev_word prev), (W c) eqn:Hc; simpl; try done.
    destruct (word_prefix alnum s) eqn:E; simpl; done.
Qed.

Lemma maximal_runs_from_app run r s :
  Forall (λ c, W c = true) r →
  maximal_runs_from alnum run (r ++ s) = maximal_runs_from alnum (run ++ r) s.
Proof.
  intros Hr. revert run. induction Hr as [|c r Hc _ IH]; intros run; simpl.
  - by rewrite app_nil_r.
  - rewrite Hc, IH, <- app_assoc. done.
Qed.

Lemma word_prefix_Forall s : Forall (λ c, W c = true) (word_prefix alnum s).
Proof.
  induction s as [|c s IH]; simpl; [constructor|].
  destruct (W c) eqn:Hc; constructor; done.
Qed.

Lemma maximal_runs_from_stop run s :
  from_option W false (head s) = false →
  maximal_runs_from alnum run s = flush run ++ maximal_runs alnum s.
Proof.
  destruct s as [|c s]; simpl; intros H.
  - by rewrite app_nil_r.
  - unfold maximal_runs; simpl. rewrite H. done.
Qed.

(** The runs of a text: its first run, then the runs of what follows. *)
Lemma maximal_runs_split s :
  maximal_runs alnum s =
  flush (word_prefix alnum s) ++ maximal_runs alnum (after_word_prefix alnum s).
Proof.
  unfold maximal_runs at 1.
  rewrite <- (word_prefix_split s) at 1.
  rewrite maximal_runs_from_app by apply word_prefix_Forall.
  rewrite maximal_runs_from_stop by apply after_word_prefix_head.
  done.
Qed.

Lemma maximal_runs_after_prefix c s :
  W c = true →
  maximal_runs alnum (after_word_prefix alnum (c :: s)) =
  maximal_runs alnum (after_word_prefix alnum s).
Proof. intros Hc. simpl. by rewrite Hc. Qed.

Lemma scan_S fuel ps prev s :
  scan alnum (S fuel) ps prev s =
  match match_here alnum ps prev s with
  | Some (S n) =>
      take (S n) s :: scan alnum fuel ps (last (take (S n) s)) (drop (S n) s)
  | Some 0 =>
      [] :: match s with
            | [] => []
            | c :: s' => scan alnum fuel ps (Some c) s'
            end
  | None =>
      match s with
      | [] => []
      | c :: s' => scan alnum fuel ps (Some c) s'
      end
  end.
Proof. reflexivity. Qed.

Lemma scan_token_pattern fuel prev s :
  length s < fuel →
  scan alnum fuel (token_pattern alnum) prev s =
  spec_tokens alnum (if prev_word prev then after_word_prefix alnum s else s).
Proof.
  revert prev s. induction fuel as [|fuel IH]; intros prev s Hlen; [lia|].
  rewrite scan_S, match_token_pattern.
  destruct (prev_word prev) eqn:Hprev.
  - (* inside or just after a run: no match here *)
    destruct s as [|c s]; [done|]. simpl in Hlen.
    rewrite IH by lia. simpl from_option.
    simpl after_word_prefix. destruct (W c) eqn:Hc; [done|].
    unfold spec_tokens, maximal_runs. simpl. by rewrite Hc.
  - unfold spec_tokens at 1. rewrite maximal_runs_split.
    pose proof (word_prefix_split s) as Hsplit.
    pose proof (after_word_prefix_length s) as Hafter.
    destruct (word_prefix alnum s) as [|c r] eqn:Hr.
    + (* no run starts here *)
      case_decide; [simpl in *; lia|]. simpl in Hsplit.
      destruct s as [|d s]; [done|]. simpl in Hlen.
      simpl in Hr. destruct (W d) eqn:Hd; [done|].
      rewrite IH by lia. simpl from_option.
      rewrite Hd. simpl.
      rewrite Hd. unfold spec_tokens, maximal_runs. simpl. by rewrite Hd.
    + destruct r as [|c' r].
      * (* a run of one character: skipped *)
        case_decide; [simpl in *; lia|].
        destruct s as [|d s]; [done|]. simpl in Hlen.
        simpl in Hr. destruct (W d) eqn:Hd; [|done].
        injection Hr as -> Hr.
        rewrite IH by lia. simpl from_option.
        rewrite Hd.
        simpl flush. rewrite filter_app.
        rewrite filter_cons_False by (simpl; lia). simpl.
        rewrite Hd.
        destruct s as [|e s]; [done|]. simpl in Hr |- *.
        destruct (W e); done.
      * (* a run of two or more: a token *)
        case_decide; [|simpl in *; lia].
        assert (Hw : Forall (λ c, W c = true) (c :: c' :: r))
          by (rewrite <- Hr; apply word_prefix_Forall).
        pose proof (after_word_prefix_head s) as Hhead.
        remember (after_word_prefix alnum s) as rest eqn:Hrest.
        clear Hrest Hr. subst s. simpl length. lazy beta iota.
        change (S (S (length r))) with (length (c :: c' :: r)).
        rewrite take_app_length, drop_app_length.
        rewrite length_app in Hlen. rewrite IH by (simpl in *; lia).
        assert (Hlast : prev_word (last (c :: c' :: r)) = true).
        { destruct (last (c :: c' :: r)) as [x|] eqn:Hl;
            [|by apply last_None in Hl].
          apply last_Some_elem_of in Hl.
          by apply (proj1 (Forall_forall _ _) Hw). }
        rewrite Hlast, after_word_prefix_stop by done.
        simpl flush. rewrite filter_app.
        by rewrite filter_cons_True by (simpl; lia).
Qed.

(** The tokens found by the pattern are the maximal runs of word
    constituents of length at least 2. *)
Lemma tokenize_maximal_runs text :
  tokenize alnum text = spec_tokens alnum text.
Proof.
  unfold tokenize, findall. by rewrite scan_token_pattern by lia.
Qed.
End TokenizerFacts.

Section TokenizerTables.
Import Text Regex Tokenizer.

(** The tokens depend on the table of alphanumerics only at the code
    points of the text. *)
Lemma maximal_runs_from_ext (alnum1 alnum2 : codepoint → bool) run s :
  Forall (λ c, alnum1 c = alnum2 c) s →
  maximal_runs_from alnum1 run s = maximal_runs_from alnum2 run s.
Proof.
  intros Hs. revert run.
  induction Hs as [|c s Hc _ IH]; intros run; simpl; [done|].
  unfold word_constituent. rewrite Hc.
  destruct (alnum2 c || (c =? underscore)%N); by rewrite IH.
Qed.

Lemma tokenize_ext (alnum1 alnum2 : codepoint → bool) s :
  Forall (λ c, alnum1 c = alnum2 c) s →
  tokenize alnum1 s = tokenize alnum2 s.
Proof.
  intros Hs. rewrite !tokenize_maximal_runs.
  unfold spec_tokens, maximal_runs. by rewrite (maximal_runs_from_ext _ _ _ _ Hs).
Qed.

Lemma lit_ascii_range (a : string) :
  Forall (λ c, (c < 128)%N) (lit a) ↔
  forallb (λ c, (c <? 128)%N) (lit a) = true.
Proof.
  rewrite forallb_forall, Forall_forall.
  split; intros H c Hc.
  - apply N.ltb_lt, H. by apply list_elem_of_In.
  - apply N.ltb_lt, H. by apply list_elem_of_In.
Qed.

Lemma tokenize_ascii alnum (a : string) :
  agrees_on_ascii alnum →
  forallb (λ c, (c <? 128)%N) (lit a) = true →
  tokenize alnum (lit a) = tokenize ascii_alnum (lit a).
Proof.
  intros Hag Ha. apply tokenize_ext.
  apply lit_ascii_range in Ha.
  eapply Forall_impl; [exact Ha|]. intros c Hc. by apply Hag.
Qed.
End TokenizerTables.

Section MaximalRuns.
Import Text Regex Tokenizer.
Variable alnum : codepoint → bool.

Local Abbreviation W := (word_constituent alnum).

Lemma maximal_runs_skip c s :
  W c = false → maximal_runs alnum (c :: s) = maximal_runs alnum s.
Proof. intros Hc. unfold maximal_runs. simpl. by rewrite Hc. Qed.

Lemma maximal_runs_word c s :
  W c = true →
  maximal_runs alnum (c :: s)
  = word_prefix alnum (c :: s)
      :: maximal_runs alnum (after_word_prefix alnum (c :: s)).
Proof.
  intros Hc. rewrite (maximal_runs_split alnum (c :: s)).
  simpl. by rewrite Hc.
Qed.

Lemma word_prefix_run r post :
  Forall (λ c, W c = true) r →
  from_option W false (head post) = false →
  word_prefix alnum (r ++ post) = r
  ∧ after_word_prefix alnum (r ++ post) = post.
Proof.
  intros Hr Hpost. induction Hr as [|c r Hc _ [IH1 IH2]]; simpl.
  - destruct post as [|d post]; simpl in *; [done|]. by rewrite Hpost.
  - by rewrite Hc, IH1, IH2.
Qed.

(** What follows the first run of a text that does not end in a word
    constituent: it is not empty and ends as the text does. *)
Lemma after_word_prefix_cut l x :
  from_option W false (last l) = false → l ≠ [] →
  ∃ l', after_word_prefix alnum (l ++ x) = l' ++ x ∧ l' ≠ []
        ∧ last l' = last l.
Proof.
  induction l as [|c l IH]; [done|]. intros Hlast _. simpl.
  destruct (W c) eqn:Hc.
  - destruct l as [|d l]; [simpl in Hlast; congruence|].
    destruct IH as (l' & Hl & Hne & Hl'); [done..|].
    exists l'. by rewrite Hl.
  - by exists (c :: l).
Qed.

(** The runs that [maximal_runs] lists are the stretches of word
    constituents that cannot be extended on either side. *)
Lemma elem_of_maximal_runs s r :
  r ∈ maximal_runs alnum s ↔ is_maximal_run alnum s r.
Proof.
  remember (length s) as n eqn:Hn. revert s r Hn.
  induction (lt_wf n) as [n _ IH]. intros s r ->.
  destruct s as [|c s].
  { split; [by intros ?%elem_of_nil|].
    intros (pre & post & Hs & Hr & _). symmetry in Hs.
    apply app_eq_nil in Hs as [_ [? _]%app_eq_nil]. done. }
  destruct (W c) eqn:Hc.
  - rewrite maximal_runs_word by done.
    pose proof (word_prefix_split alnum (c :: s)) as Hsplit.
    pose proof (after_word_prefix_head alnum (c :: s)) as Hhead.
    assert (Hshort : length (after_word_prefix alnum (c :: s))
                     < length (c :: s)).
    { rewrite <- Hsplit at 2. rewrite length_app.
      simpl word_prefix. rewrite Hc. simpl. lia. }
    rewrite elem_of_cons, (IH _ Hshort _ r eq_refl). split.
    + intros [->|(pre & post & Hs & Hr & Hw & Hpre & Hpost)].
      * exists [], (after_word_prefix alnum (c :: s)).
        split; [by rewrite Hsplit|]. split; [simpl; by rewrite Hc|].
        split; [apply word_prefix_Forall|done].
      * exists (word_prefix alnum (c :: s) ++ pre), post.
        split; [by rewrite <- app_assoc, <- Hs, Hsplit|].
        split; [done|]. split; [done|]. split; [|done].
        destruct pre as [|d pre].
        { exfalso. destruct r as [|e r]; [done|].
          rewrite Hs in Hhead. simpl in Hhead.
          apply Forall_cons in Hw as [He _]. congruence. }
        by rewrite last_app_cons.
    + intros (pre & post & Hs & Hr & Hw & Hpre & Hpost).
      destruct pre as [|d pre].
      * left. simpl in Hs.
        destruct (word_prefix_run r post Hw Hpost) as [Hp _].
        by rewrite Hs, Hp.
      * right. rewrite Hs.
        destruct (after_word_prefix_cut (d :: pre) (r ++ post) Hpre)
          as (pre' & Hcut & _ & Hlast); [done|].
        exists pre', post. by rewrite Hcut, Hlast.
  - rewrite maximal_runs_skip by done.
    rewrite (IH (length s) (Nat.lt_succ_diag_r _) s r eq_refl). split.
    + intros (pre & post & -> & Hr & Hw & Hpre & Hpost).
      exists (c :: pre), post. split; [done|]. split; [done|].
      split; [done|]. split; [|done].
      destruct pre as [|d pre]; done.
    + intros (pre & post & Hs & Hr & Hw & Hpre & Hpost).
      destruct pre as [|d pre].
      { exfalso. destruct r as [|e r]; [done|]. simpl in Hs.
        injection Hs as <- _. apply Forall_cons in Hw as [He _]. congruence. }
      injection Hs as <- ->. exists pre, post. split; [done|].
      split; [done|]. split; [done|]. split; [|done].
      destruct pre as [|e pre]; done.
Qed.
End MaximalRuns.

(** C6. [tokenize] returns exactly the maximal runs of word-constituent
    characters (alphanumerics of the interpreter's table, and the
    underscore) that are at least 2 long, in order of occurrence: a
    string is a token if and only if it is a stretch of word
    constituents of the text, 2 long or more, with no word constituent
    right before or after it; hence
    [tokenize("a1 _b2 c")] is [["a1", "_b2"]], without the
    single-character ["c"], and [tokenize("")] is empty. *)
Theorem tokenize_spec (alnum : Text.codepoint → bool) :
  Text.agrees_on_ascii alnum →
  (∀ text, Tokenizer.tokenize alnum text = Tokenizer.spec_tokens alnum text)
  ∧ (∀ text r,
       r ∈ Tokenizer.tokenize alnum text ↔
       Tokenizer.is_maximal_run alnum text r ∧ 2 ≤ length r)
  ∧ Tokenizer.tokenize alnum (Text.lit "a1 _b2 c")
    = [Text.lit "a1"; Text.lit "_b2"]
  ∧ Tokenizer.tokenize alnum [] = [].
Proof.
  intros Hag. split; [apply tokenize_maximal_runs|]. split; [|split].
  - intros text r. rewrite tokenize_maximal_runs.
    unfold Tokenizer.spec_tokens.
    rewrite list_elem_of_filter, elem_of_maximal_runs. tauto.
  - rewrite (tokenize_ascii alnum "a1 _b2 c" Hag) by reflexivity.
    vm_compute. reflexivity.
  - reflexivity.
Qed.

Lemma tokenize_spec_witness :
  Text.agrees_on_ascii Text.ascii_alnum
  ∧ Tokenizer.tokenize Text.ascii_alnum (Text.lit "a1 _b2 c")
    = [Text.lit "a1"; Text.lit "_b2"].
Proof.
  split; [intros c _; reflexivity|].
  apply (tokenize_spec Text.ascii_alnum). intros c _. reflexivity.
Defined.

(** ** The stream reader *)

Section ReaderFacts.
Import Text Runtime Reader.

Lemma status_ok_set_idx it i : status_ok (set_idx it i) = status_ok it.
Proof. reflexivity. Qed.

Lemma status_ok_spec it :
  status_ok it = true ↔ status it = 200%Z ∨ status it = 404%Z.
Proof.
  unfold status_ok. rewrite orb_true_iff, !Z.eqb_eq. done.
Qed.

Lemma reached_mono limit i j : i ≤ j → reached limit i = true → reached limit j = true.
Proof.
  destruct limit as [l|]; simpl; [|done].
  rewrite !Z.leb_le. lia.
Qed.

Lemma reached_spec limit i :
  reached limit i = false ↔ ∀ l, limit = Some l → (Z.of_nat i < l)%Z.
Proof.
  destruct limit as [l|]; simpl.
  - rewrite Z.leb_gt. split; [by intros ? ? [= <-]|]. intros H. by apply H.
  - split; [by intros _ ? [=]|done].
Qed.

Lemma wanted_spec indices i :
  wanted indices i = true ↔ ∀ chosen, indices = Some chosen → i ∈ chosen.
Proof.
  destruct indices as [chosen|]; simpl.
  - rewrite bool_decide_eq_true. split; [by intros ? ? [= <-]|]. intros H. by apply H.
  - split; [by intros _ ? [=]|done].
Qed.

Lemma yielded_from_reached limit indices k objs :
  reached limit k = true → yielded_from limit indices k objs = [].
Proof.
  revert k. induction objs as [|it rest IH]; intros k Hk; simpl; [done|].
  rewrite Hk. simpl. apply IH. apply (reached_mono limit k); [lia|done].
Qed.

(** The loop with its [break], over the numbered stream, yields what
    the three filters let through. *)
Lemma read_loop_yielded limit indices k objs :
  read_loop limit
    (filter (λ p : nat * item, wanted indices p.1)
            (imap (λ i it, (k + i, it)) objs))
  = yielded_from limit indices k objs.
Proof.
  revert k. induction objs as [|it rest IH]; intros k; [done|].
  cbn [imap yielded_from]. rewrite Nat.add_0_r.
  assert (Hrest :
    imap ((λ i it0, (k + i, it0)) ∘ S) rest
    = imap (λ i it0, (S k + i, it0)) rest).
  { apply imap_ext. intros i x _. simpl. f_equal. lia. }
  rewrite Hrest.
  destruct (wanted indices k) eqn:Hw.
  - rewrite filter_cons_True by (simpl; by rewrite Hw).
    cbn [read_loop]. rewrite status_ok_set_idx, IH.
    destruct (reached limit k) eqn:Hr; simpl.
    + symmetry. apply yielded_from_reached.
      apply (reached_mono limit k); [lia|done].
    + destruct (status_ok it); done.
  - rewrite filter_cons_False by (simpl; rewrite Hw; intros []).
    rewrite IH, andb_false_r. done.
Qed.

Lemma elem_of_yielded_from limit indices k objs it :
  it ∈ yielded_from limit indices k objs ↔
  ∃ i raw, objs !! i = Some raw ∧ it = set_idx raw (k + i)
           ∧ reached limit (k + i) = false
           ∧ wanted indices (k + i) = true
           ∧ status_ok raw = true.
Proof.
  revert k. induction objs as [|x rest IH]; intros k; simpl.
  - split; [by intros ?%elem_of_nil | by intros (i & raw & ? & _)].
  - rewrite elem_of_app, IH. split.
    + intros [H | (i & raw & Hi & -> & Hr & Hw & Hs)].
      * destruct (reached limit k) eqn:Hr, (wanted indices k) eqn:Hw,
          (status_ok x) eqn:Hs; simpl in H;
          try by apply elem_of_nil in H.
        apply list_elem_of_singleton in H as ->.
        exists 0, x. rewrite Nat.add_0_r. done.
      * exists (S i), raw. replace (k + S i) with (S k + i) by lia. done.
    + intros (i & raw & Hi & -> & Hr & Hw & Hs).
      destruct i as [|i]; simpl in Hi.
      * left. injection Hi as ->. rewrite Nat.add_0_r in *.
        rewrite Hr, Hw, Hs. simpl. by apply list_elem_of_singleton.
      * right. exists i, raw. replace (S k + i) with (k + S i) by lia. done.
Qed.

Lemma yielded_from_idx_bound limit indices k objs :
  Forall (λ it, k ≤ idx it) (yielded_from limit indices k objs).
Proof.
  apply Forall_forall. intros it (i & raw & _ & -> & _)%elem_of_yielded_from.
  simpl. lia.
Qed.

(** The [idx] values of a pass are strictly increasing. *)
Lemma yielded_from_sorted limit indices k objs :
  StronglySorted lt (idx <$> yielded_from limit indices k objs).
Proof.
  revert k. induction objs as [|x rest IH]; intros k; simpl; [constructor|].
  destruct (negb (reached limit k) && wanted indices k && status_ok x);
    simpl; [|apply IH].
  constructor; [apply IH|].
  apply Forall_fmap. eapply Forall_impl; [apply yielded_from_idx_bound|].
  simpl. intros; lia.
Qed.

Lemma file_reader_run filename indices limit s :
  file_reader filename indices limit s =
  match files s !! filename with
  | None => (Raise FileNotFoundError, s)
  | Some objs =>
      (Ok (yielded_from limit indices 0 objs),
       State (files s) (heap s) (shuffles s)
             (trace s ++ [Opened filename] ++ [Closed filename]))
  end.
Proof.
  unfold file_reader, mbind, M_bind, bind, get_state.
  destruct (files s !! filename) as [objs|] eqn:E; [|done].
  simpl. unfold pickle_stream_reader.
  rewrite <- (read_loop_yielded limit indices 0 objs).
  by rewrite <- app_assoc.
Qed.

(** A pass leaves the files, the lists and the generator as they are. *)
Lemma file_reader_frame filename indices limit s :
  let s' := (file_reader filename indices limit s).2 in
  files s' = files s ∧ heap s' = heap s ∧ shuffles s' = shuffles s.
Proof.
  rewrite file_reader_run. by destruct (files s !! filename).
Qed.

Lemma file_reader_stable_limit filename indices limit s1 s2 :
  files s1 !! filename = files s2 !! filename →
  (file_reader filename indices limit s1).1
  = (file_reader filename indices limit s2).1.
Proof.
  intros H. rewrite !file_reader_run, H.
  by destruct (files s2 !! filename).
Qed.
End ReaderFacts.

(** C3. Every item that [file_reader] yields is the object found at
    position [idx] of the stream, counted from 0 in read order whatever
    the filters, with that [idx] stored in it; its [idx] is below the
    limit when there is one, belongs to the index set when there is one,
    and its status is 200 or 404. *)
Theorem file_reader_yields filename indices limit s items s' :
  Reader.file_reader filename indices limit s = (Runtime.Ok items, s') →
  ∀ it, it ∈ items →
    (∃ objs raw, Runtime.files s !! filename = Some objs
       ∧ objs !! Runtime.idx it = Some raw
       ∧ it = Runtime.set_idx raw (Runtime.idx it))
    ∧ (∀ l, limit = Some l → (Z.of_nat (Runtime.idx it) < l)%Z)
    ∧ (∀ chosen : gset nat, indices = Some chosen → Runtime.idx it ∈ chosen)
    ∧ (Runtime.status it = 200%Z ∨ Runtime.status it = 404%Z).
Proof.
  rewrite file_reader_run.
  destruct (Runtime.files s !! filename) as [objs|] eqn:Hf; [|done].
  intros [= <- _] it (i & raw & Hi & -> & Hr & Hw & Hs)%elem_of_yielded_from.
  simpl in *. split; [by exists objs, raw|].
  split; [by apply reached_spec|]. split; [by apply wanted_spec|].
  by apply status_ok_spec.
Qed.

(** C9. Two independent passes of [file_reader] with the same file name
    and index set and no limit, over states that hold the same dataset,
    give the same sequence of [idx] values in the same order (or fail
    alike when the file is missing); a pass leaves the dataset as it is,
    so this holds for a pass made after another. *)
Theorem file_reader_stable filename indices s1 s2 :
  Runtime.files s1 !! filename = Runtime.files s2 !! filename →
  Reader.idx_values (Reader.file_reader filename indices None s1).1
  = Reader.idx_values (Reader.file_reader filename indices None s2).1
  ∧ Runtime.files (Reader.file_reader filename indices None s1).2
    = Runtime.files s1.
Proof.
  intros H. split.
  - by rewrite (file_reader_stable_limit filename indices None s1 s2 H).
  - apply file_reader_frame.
Qed.

(** ** Numbered lists and the resolution of logical ids *)

Section Numbered.
Import Views.
Context {A : Type}.
Implicit Types l : list A.

Lemma elem_of_numbered l i x : (i, x) ∈ numbered l ↔ l !! i = Some x.
Proof.
  unfold numbered. rewrite elem_of_lookup_imap. split.
  - by intros (j & y & [= -> ->] & H).
  - intros H. by exists i, x.
Qed.

Lemma numbered_fst l : (numbered l).*1 = seq 0 (length l).
Proof.
  unfold numbered. rewrite fmap_imap.
  rewrite <- (list_fmap_id (seq 0 (length l))).
  rewrite <- (imap_seq_0 l id). by apply imap_ext.
Qed.

Lemma numbered_NoDup_fst l : NoDup (numbered l).*1.
Proof. rewrite numbered_fst. apply NoDup_seq. Qed.

Lemma filter_numbered_NoDup_fst (P : nat * A → Prop)
    `{!∀ p, Decision (P p)} l :
  NoDup (filter P (numbered l)).*1.
Proof.
  eapply sublist_NoDup; [apply numbered_NoDup_fst|].
  apply fmap_sublist, sublist_filter.
Qed.

(** Filtering on the element only commutes with the numbering. *)
Lemma filter_numbered_snd (Q : A → Prop) `{!∀ x, Decision (Q x)} k l :
  (filter (λ p : nat * A, Q p.2) (imap (λ i x, (k + i, x)) l)).*2
  = filter Q l.
Proof.
  revert k. induction l as [|x l IH]; intros k; [done|].
  cbn [imap]. rewrite !filter_cons. simpl.
  assert (Hrest : imap ((λ i x0, (k + i, x0)) ∘ S) l
                  = imap (λ i x0, (S k + i, x0)) l).
  { apply imap_ext. intros i y _. simpl. f_equal. lia. }
  rewrite Hrest. destruct (decide (Q x)); rewrite ?fmap_cons, IH; done.
Qed.
End Numbered.

Section ResolveFacts.
Import Text Runtime Resolve Views.
Implicit Types urls : list (nat * str).

Lemma to_data_idx_unfold indices urls :
  to_data_idx indices urls =
  let ids : gset Z := list_to_set indices in
  if decide (length (selected ids urls) = size ids)
  then Ok ((λ p : nat * (nat * str), p.2.1) <$> selected ids urls)
  else Raise AssertionError.
Proof.
  unfold to_data_idx, selected, numbered. simpl.
  rewrite length_fmap. done.
Qed.

Lemma selected_ids_NoDup ids urls :
  NoDup (Z.of_nat <$> (selected ids urls).*1).
Proof.
  apply NoDup_fmap_2; [apply _|]. apply filter_numbered_NoDup_fst.
Qed.

Lemma elem_of_selected_ids ids urls z :
  z ∈ Z.of_nat <$> (selected ids urls).*1 ↔ z ∈ ids ∧ valid_id urls z.
Proof.
  rewrite list_elem_of_fmap. split.
  - intros (i & -> & Hi). apply list_elem_of_fmap in Hi as ([j u] & -> & Hp).
    apply list_elem_of_filter in Hp as [Hin Hp]. simpl in *.
    apply elem_of_numbered, lookup_lt_Some in Hp.
    split; [done|]. unfold valid_id. lia.
  - intros [Hin [H0 Hlt]].
    assert (Hi : Z.to_nat z < length urls) by lia.
    apply lookup_lt_is_Some in Hi as [u Hu].
    exists (Z.to_nat z). split; [lia|].
    apply list_elem_of_fmap. exists (Z.to_nat z, u). split; [done|].
    apply list_elem_of_filter. split; [|by apply elem_of_numbered].
    simpl. by replace (Z.of_nat (Z.to_nat z)) with z by lia.
Qed.

Lemma selected_length ids urls :
  length (selected ids urls)
  = size (filter (valid_id urls) ids).
Proof.
  rewrite <- (length_fmap fst), <- (length_fmap Z.of_nat).
  rewrite <- (size_list_to_set (C:=gset Z)) by apply selected_ids_NoDup.
  f_equal. apply set_eq. intros z.
  rewrite elem_of_list_to_set, elem_of_selected_ids, elem_of_filter.
  tauto.
Qed.

Lemma size_distinct (indices : list Z) :
  size (list_to_set indices : gset Z) = length (remove_dups indices).
Proof.
  rewrite <- (size_list_to_set (C:=gset Z)) by apply NoDup_remove_dups.
  f_equal. apply set_eq. intros z.
  by rewrite !elem_of_list_to_set, elem_of_remove_dups.
Qed.

Lemma selected_all_valid ids urls :
  length (selected ids urls) = size ids ↔ ∀ z, z ∈ ids → valid_id urls z.
Proof.
  rewrite selected_length. split.
  - intros Hsize z Hz.
    destruct (decide (valid_id urls z)) as [|Hnv]; [done|].
    assert (Hsub : filter (valid_id urls) ids ⊂ ids).
    { split; [by intros y [_ ?]%elem_of_filter|]. intros Hsup. apply Hnv.
      specialize (Hsup z Hz). by apply elem_of_filter in Hsup as [? _]. }
    apply subset_size in Hsub. lia.
  - intros Hall. f_equal. apply set_eq. intros z.
    rewrite elem_of_filter. split; [by intros [_ ?]|]. intros Hz. by split; [apply Hall|].
Qed.
End ResolveFacts.

(** C2. [to_data_idx] either returns a list with as many entries as
    there are distinct requested ids, and then every requested id is a
    position of [urls]; or it fails its assertion, and then some
    requested id is not a position of [urls].  It never returns a
    shorter list. *)
Theorem to_data_idx_strict (indices : list Z) (urls : list (nat * Text.str)) :
  match Resolve.to_data_idx indices urls with
  | Runtime.Ok result =>
      length result = length (remove_dups indices)
      ∧ ∀ i, i ∈ indices → (0 ≤ i < Z.of_nat (length urls))%Z
  | Runtime.Raise e =>
      e = Runtime.AssertionError
      ∧ ∃ i, i ∈ indices ∧ ¬ (0 ≤ i < Z.of_nat (length urls))%Z
  end.
Proof.
  rewrite to_data_idx_unfold. cbv zeta.
  destruct (decide (length (Views.selected (list_to_set indices) urls)
                    = size (list_to_set indices : gset Z))) as [Heq|Hne].
  - split.
    + by rewrite length_fmap, Heq, size_distinct.
    + intros i Hi. apply (proj1 (selected_all_valid _ urls) Heq).
      by apply elem_of_list_to_set.
  - split; [done|].
    destruct (decide (Forall (Views.valid_id urls) indices)) as [Hall|Hnot].
    + exfalso. apply Hne, selected_all_valid. intros z Hz.
      apply elem_of_list_to_set in Hz.
      by apply (proj1 (Forall_forall _ _) Hall).
    + apply not_Forall_Exists in Hnot; [|apply _].
      apply Exists_exists in Hnot as (i & Hi & Hnv). by exists i.
Qed.

(** ** Folds *)

Section FilterFacts.
Context {A : Type}.

Lemma filter_ext_elem (P Q : A → Prop) `{!∀ x, Decision (P x)}
    `{!∀ x, Decision (Q x)} (l : list A) :
  (∀ x, x ∈ l → (P x ↔ Q x)) → filter P l = filter Q l.
Proof.
  induction l as [|x l IH]; intros Hl; [done|].
  rewrite !filter_cons.
  assert (P x ↔ Q x) as Hx by (apply Hl; left).
  rewrite IH by (intros y Hy; apply Hl; by right).
  destruct (decide (P x)), (decide (Q x)); tauto || done.
Qed.

(** Numbering before or after a map selects the same positions. *)
Lemma positions_fmap {B} (g : A → B) (P : B → Prop)
    `{!∀ y, Decision (P y)} k (l : list A) :
  (filter (λ p : nat * B, P p.2) (imap (λ i x, (k + i, g x)) l)).*1
  = (filter (λ p : nat * A, P (g p.2)) (imap (λ i x, (k + i, x)) l)).*1.
Proof.
  revert k. induction l as [|x l IH]; intros k; [done|].
  cbn [imap]. rewrite !filter_cons. simpl.
  rewrite (imap_ext ((λ i x0, (k + i, g x0)) ∘ S)
                    (λ i x0, (S k + i, g x0)) l)
    by (intros i y _; simpl; f_equal; lia).
  rewrite (imap_ext ((λ i x0, (k + i, x0)) ∘ S)
                    (λ i x0, (S k + i, x0)) l)
    by (intros i y _; simpl; f_equal; lia).
  destruct (decide (P (g x))); rewrite ?fmap_cons, IH; done.
Qed.

(** Distributing a list over the values of a function bounded by [n]
    rearranges it. *)
Lemma concat_filter_classes (g : A → nat) (fs : list nat) (l : list A) :
  NoDup fs →
  concat ((λ f, filter (λ x, g x = f) l) <$> fs)
  ≡ₚ filter (λ x, g x ∈ fs) l.
Proof.
  intros Hfs. induction Hfs as [|f fs Hf _ IH]; simpl.
  - induction l as [|x l IHl]; [done|].
    rewrite filter_cons_False; [done|]. by intros ?%elem_of_nil.
  - rewrite IH. clear IH.
    induction l as [|x l IHl]; [done|].
    rewrite !filter_cons.
    destruct (decide (g x = f)) as [<-|Hne].
    + rewrite decide_False by done.
      rewrite decide_True by left. simpl. by rewrite IHl.
    + destruct (decide (g x ∈ fs)) as [Hin|Hnin].
      * rewrite decide_True by (by right).
        rewrite <- Permutation_middle. by rewrite IHl.
      * rewrite decide_False; [done|].
        intros [?|?]%elem_of_cons; done.
Qed.

Lemma concat_filter_seq (g : A → nat) (n : nat) (l : list A) :
  (∀ x, x ∈ l → g x < n) →
  concat ((λ f, filter (λ x, g x = f) l) <$> seq 0 n) ≡ₚ l.
Proof.
  intros Hlt. rewrite concat_filter_classes by apply NoDup_seq.
  rewrite (filter_ext_elem _ (λ _, True) l).
  - induction l as [|x l IH]; [done|].
    rewrite filter_cons_True by done. apply Permutation_skip.
    apply IH. intros y Hy. apply Hlt. by right.
  - intros x Hx. split; [done|]. intros _.
    apply elem_of_seq. specialize (Hlt x Hx). lia.
Qed.
End FilterFacts.

Section FoldFacts.
Import Text Runtime Reader Resolve Folds Driver Views.
Variable get_domain : str → str.
Variable assign : str → nat.
Implicit Types urls : list (nat * str).

Local Abbreviation fold_of := (Views.fold_of get_domain assign).
Local Abbreviation train_ids := (Views.train_ids get_domain assign).
Local Abbreviation test_ids := (Views.test_ids get_domain assign).

Lemma test_positions_urls urls f :
  test_positions assign (get_domain <$> urls.*2) f
  = (filter (λ p : nat * (nat * str), fold_of p.2 = f) (numbered urls)).*1.
Proof.
  unfold test_positions, numbered.
  rewrite <- list_fmap_compose, imap_fmap.
  exact (positions_fmap (get_domain ∘ snd) (λ d, assign d = f) 0 urls).
Qed.

Lemma train_positions_urls urls f :
  train_positions assign (get_domain <$> urls.*2) f
  = (filter (λ p : nat * (nat * str), fold_of p.2 ≠ f) (numbered urls)).*1.
Proof.
  unfold train_positions, numbered.
  rewrite <- list_fmap_compose, imap_fmap.
  exact (positions_fmap (get_domain ∘ snd) (λ d, assign d ≠ f) 0 urls).
Qed.

(** Resolving the positions that a property of the entries selects
    gives the dataset ids of the entries with that property. *)
Lemma to_data_idx_positions (Q : nat * str → Prop)
    `{!∀ u, Decision (Q u)} urls :
  to_data_idx
    (Z.of_nat <$> (filter (λ p : nat * (nat * str), Q p.2)
                          (numbered urls)).*1) urls
  = Ok (filter Q urls).*1.
Proof.
  rewrite to_data_idx_unfold. cbv zeta.
  set (ps := filter (λ p : nat * (nat * str), Q p.2) (numbered urls)).
  set (ids := list_to_set (Z.of_nat <$> ps.*1) : gset Z).
  assert (Hsel : selected ids urls = ps).
  { unfold selected, ps. apply filter_ext_elem.
    intros [i u] Hiu. simpl. unfold ids.
    rewrite elem_of_list_to_set, list_elem_of_fmap. split.
    - intros (i' & Hi & Hp). assert (i' = i) as -> by lia.
      apply list_elem_of_fmap in Hp as ([j u'] & Hj & Hp).
      simpl in Hj. subst j.
      apply list_elem_of_filter in Hp as [HQ Hp]. simpl in HQ.
      apply elem_of_numbered in Hp, Hiu. congruence.
    - intros HQ. exists i. split; [done|].
      apply list_elem_of_fmap. exists (i, u). split; [done|].
      by apply list_elem_of_filter. }
  rewrite decide_True.
  - rewrite Hsel. f_equal. unfold ps.
    rewrite <- (filter_numbered_snd Q 0 urls).
    by rewrite <- list_fmap_compose.
  - apply selected_all_valid. intros z Hz. unfold ids in Hz.
    apply elem_of_list_to_set, list_elem_of_fmap in Hz as (i & -> & Hi).
    apply list_elem_of_fmap in Hi as ([j u] & -> & Hp).
    apply list_elem_of_filter in Hp as [_ Hp].
    apply elem_of_numbered, lookup_lt_Some in Hp.
    unfold valid_id. simpl. lia.
Qed.

Lemma resolve_fold_run urls f :
  resolve_fold urls (train_positions assign (get_domain <$> urls.*2) f,
                     test_positions assign (get_domain <$> urls.*2) f)
  = Ok (train_ids urls f, test_ids urls f).
Proof.
  unfold resolve_fold. cbn [fst snd].
  rewrite train_positions_urls, test_positions_urls.
  pose proof (to_data_idx_positions (λ u, fold_of u ≠ f) urls) as Htrain.
  pose proof (to_data_idx_positions (λ u, fold_of u = f) urls) as Htest.
  cbv beta in Htrain, Htest. by rewrite Htrain, Htest.
Qed.

Lemma resolve_folds_run urls (fs : list nat) :
  resolve_folds urls
    ((λ f, (train_positions assign (get_domain <$> urls.*2) f,
            test_positions assign (get_domain <$> urls.*2) f)) <$> fs)
  = Ok ((λ f, (train_ids urls f, test_ids urls f)) <$> fs).
Proof.
  induction fs as [|f fs IH]; [done|].
  cbn [fmap list_fmap resolve_folds] in *.
  by rewrite resolve_fold_run, IH.
Qed.
End FoldFacts.

(** ** The driver up to the folds *)

Section PipelineFacts.
Import Text Runtime Reader Resolve Folds Driver Views.
Variable get_domain : str → str.
Variable assign : str → nat.

Local Abbreviation train_ids := (Views.train_ids get_domain assign).
Local Abbreviation test_ids := (Views.test_ids get_domain assign).

Lemma file_reader_ok filename indices limit s objs :
  files s !! filename = Some objs →
  file_reader filename indices limit s
  = (Ok (yielded_from limit indices 0 objs), touch filename s).
Proof. intros H. by rewrite file_reader_run, H. Qed.

Lemma file_reader_missing filename indices limit s :
  files s !! filename = None →
  file_reader filename indices limit s = (Raise FileNotFoundError, s).
Proof. intros H. by rewrite file_reader_run, H. Qed.

Lemma bind_run {A B} (m : M A) (k : A → M B) s :
  (m ≫= k) s =
  match m s with
  | (Ok a, s') => k a s'
  | (Raise e, s') => (Raise e, s')
  end.
Proof. reflexivity. Qed.

Lemma data_iter_ok filename limit flt ids s objs :
  files s !! filename = Some objs →
  data_iter (reader filename limit) flt ids s
  = (Ok (yielded_from limit (passed flt ids) 0 objs), touch filename s).
Proof. intros H. unfold data_iter, reader. by apply file_reader_ok. Qed.

Lemma get_lang_indices_ok filename limit only_lang s objs :
  files s !! filename = Some objs →
  get_lang_indices (reader filename limit) only_lang s
  = (Ok (lang_indices limit only_lang objs), touch filename s).
Proof.
  intros H. unfold get_lang_indices. rewrite bind_run.
  unfold reader. by rewrite (file_reader_ok _ _ _ _ objs H).
Qed.

Lemma prepare_ok filename only_lang limit s objs :
  files s !! filename = Some objs →
  ∃ s', prepare filename only_lang limit s
        = (Ok (language_filter limit only_lang objs,
               retained_urls limit only_lang objs), s')
        ∧ files s' = files s ∧ heap s' = heap s
        ∧ shuffles s' = shuffles s.
Proof.
  intros H. unfold prepare, language_filter, retained_urls, retained,
    language_filter.
  rewrite bind_run.
  destruct (bool_decide (only_lang ≠ [])).
  - rewrite bind_run, (get_lang_indices_ok _ _ _ _ objs H).
    cbn [mret M_ret ret]. rewrite bind_run.
    rewrite (data_iter_ok _ _ _ _ _ objs) by done.
    rewrite bind_run.
    rewrite (data_iter_ok _ _ _ _ _ objs) by done.
    eexists. split; [reflexivity|done].
  - cbn [mret M_ret ret]. rewrite bind_run.
    rewrite (data_iter_ok _ _ _ _ _ objs) by done.
    rewrite bind_run.
    rewrite (data_iter_ok _ _ _ _ _ objs) by done.
    eexists. split; [reflexivity|done].
Qed.

Lemma prepare_missing filename only_lang limit s :
  files s !! filename = None →
  ∃ s', prepare filename only_lang limit s = (Raise FileNotFoundError, s').
Proof.
  intros H. unfold prepare. rewrite bind_run.
  destruct (bool_decide (only_lang ≠ [])).
  - rewrite bind_run. unfold get_lang_indices. rewrite bind_run.
    unfold reader. rewrite (file_reader_missing _ _ _ _ H). by eexists.
  - cbn [mret M_ret ret]. rewrite bind_run. unfold data_iter, reader.
    rewrite (file_reader_missing _ _ _ _ H). by eexists.
Qed.

Lemma main_folds_ok filename only_lang limit n_folds s objs :
  files s !! filename = Some objs →
  let urls := retained_urls limit only_lang objs in
  ∃ s', main_folds get_domain assign filename only_lang limit n_folds s
        = (Ok (language_filter limit only_lang objs, urls,
               (λ f, (train_ids urls f, test_ids urls f)) <$> seq 0 n_folds),
           s')
        ∧ files s' = files s.
Proof.
  intros H urls. unfold main_folds. rewrite bind_run.
  destruct (prepare_ok filename only_lang limit s objs H)
    as (s' & -> & Hfiles & _).
  rewrite bind_run. unfold lift, LabelKFold.
  fold urls. rewrite (resolve_folds_run get_domain assign urls).
  eexists. split; [reflexivity|done].
Qed.

Lemma main_folds_inv filename only_lang limit n_folds s flt urls folds s' :
  main_folds get_domain assign filename only_lang limit n_folds s
  = (Ok (flt, urls, folds), s') →
  ∃ objs, files s !! filename = Some objs
    ∧ flt = language_filter limit only_lang objs
    ∧ urls = retained_urls limit only_lang objs
    ∧ folds = (λ f, (train_ids urls f, test_ids urls f)) <$> seq 0 n_folds.
Proof.
  intros Hrun. destruct (files s !! filename) as [objs|] eqn:Hf.
  - destruct (main_folds_ok filename only_lang limit n_folds s objs Hf)
      as (s1 & Hok & _).
    rewrite Hok in Hrun. injection Hrun as <- <- <- _. by exists objs.
  - exfalso. unfold main_folds in Hrun. rewrite bind_run in Hrun.
    destruct (prepare_missing filename only_lang limit s Hf) as (s1 & Hm).
    by rewrite Hm in Hrun.
Qed.

Lemma sorted_lt_NoDup (l : list nat) : StronglySorted lt l → NoDup l.
Proof.
  induction 1 as [|x l _ IH Hx]; constructor; [|done].
  intros Hin. apply (proj1 (Forall_forall _ _) Hx) in Hin. lia.
Qed.

(** Retained items are numbered without repetition, and an [idx]
    determines the item. *)
Lemma retained_urls_NoDup limit only_lang objs :
  NoDup (retained_urls limit only_lang objs).*1.
Proof.
  unfold retained_urls, retained. rewrite <- list_fmap_compose.
  apply sorted_lt_NoDup, (yielded_from_sorted limit _ 0 objs).
Qed.

Lemma yielded_item_of_idx limit indices indices' objs a b :
  a ∈ yielded_from limit indices 0 objs →
  b ∈ yielded_from limit indices' 0 objs →
  idx a = idx b → a = b.
Proof.
  intros (i & ra & Hi & -> & _)%elem_of_yielded_from
         (j & rb & Hj & -> & _)%elem_of_yielded_from.
  simpl. intros ->. congruence.
Qed.
End PipelineFacts.

Section SplitFacts.
Import Text Runtime Reader Resolve Folds Driver Views.
Variable get_domain : str → str.
Variable assign : str → nat.

Local Abbreviation fold_of := (Views.fold_of get_domain assign).
Local Abbreviation train_ids := (Views.train_ids get_domain assign).
Local Abbreviation test_ids := (Views.test_ids get_domain assign).

Lemma elem_of_passed flt ids i :
  wanted (passed flt (Some ids)) i = true → i ∈ ids.
Proof.
  destruct flt as [flt|]; simpl; rewrite bool_decide_eq_true.
  - rewrite elem_of_intersection, elem_of_list_to_set. tauto.
  - by rewrite elem_of_list_to_set.
Qed.

(** An item fetched for a set of ids that a property of the entries
    of [urls] selects has that property. *)
Lemma fetched_item_selected (Q : nat * str → Prop)
    `{!∀ u, Decision (Q u)} limit only_lang objs it :
  let urls := retained_urls limit only_lang objs in
  it ∈ yielded_from limit
         (passed (language_filter limit only_lang objs)
                 (Some (filter Q urls).*1)) 0 objs →
  Q (idx it, url it).
Proof.
  intros urls Hit.
  assert (Hid : idx it ∈ (filter Q urls).*1).
  { apply elem_of_yielded_from in Hit as (i & raw & _ & -> & _ & Hw & _).
    by apply elem_of_passed in Hw. }
  apply list_elem_of_fmap in Hid as (u & Hu & Hin).
  apply list_elem_of_filter in Hin as [HQ Hin].
  unfold urls, retained_urls in Hin.
  apply list_elem_of_fmap in Hin as (it' & -> & Hit').
  simpl in Hu. unfold retained in Hit'.
  by rewrite (yielded_item_of_idx _ _ _ _ _ _ Hit Hit' Hu).
Qed.

Lemma concat_fmap_fst (l : list (nat * str)) (P : nat → nat * str → Prop)
    `{!∀ f u, Decision (P f u)} (fs : list nat) :
  concat ((λ f, (filter (P f) l).*1) <$> fs)
  = (concat ((λ f, filter (P f) l) <$> fs)).*1.
Proof.
  induction fs as [|f fs IH]; [done|].
  cbn [fmap list_fmap concat] in *. by rewrite fmap_app, IH.
Qed.

Lemma test_splits_partition urls n_folds :
  (∀ d, assign d < n_folds) →
  concat (((λ f, (train_ids urls f, test_ids urls f)) <$> seq 0 n_folds).*2)
  ≡ₚ urls.*1.
Proof.
  intros Hlt. rewrite <- list_fmap_compose.
  change (concat ((λ f, (filter (λ u, fold_of u = f) urls).*1)
                    <$> seq 0 n_folds) ≡ₚ urls.*1).
  rewrite (concat_fmap_fst urls (λ f u, fold_of u = f)).
  apply fmap_Permutation, concat_filter_seq.
  intros u _. apply Hlt.
Qed.

Lemma NoDup_fst_unique (l : list (nat * str)) i x x' :
  NoDup l.*1 → (i, x) ∈ l → (i, x') ∈ l → x = x'.
Proof.
  induction l as [|[j y] l IH]; csimpl; [by intros _ ?%elem_of_nil|].
  intros [Hj Hnd]%NoDup_cons [Hx|Hx]%elem_of_cons [Hx'|Hx']%elem_of_cons.
  - congruence.
  - injection Hx as -> ->. destruct Hj.
    apply list_elem_of_fmap. by exists (j, x').
  - injection Hx' as -> ->. destruct Hj.
    apply list_elem_of_fmap. by exists (j, x).
  - by apply IH.
Qed.

Lemma elem_of_test_ids urls f i :
  NoDup urls.*1 →
  ∀ u, u ∈ urls → u.1 = i → (i ∈ test_ids urls f ↔ fold_of u = f).
Proof.
  intros Hnd u Hu <-. unfold Views.test_ids.
  rewrite list_elem_of_fmap. split.
  - intros (u' & Heq & [Hf Hu']%list_elem_of_filter).
    assert (u' = u) as <-; [|done].
    destruct u as [i x], u' as [i' x']. simpl in Heq. subst i'.
    f_equal. by apply (NoDup_fst_unique urls i).
  - intros Hf. exists u. split; [done|]. by apply list_elem_of_filter.
Qed.
End SplitFacts.

(** C1. For every fold that [main] hands to the evaluator, the
    registered domains ([get_domain] of the items' urls) of the items
    fetched for the fold's test ids and those of the items fetched for
    its train ids, over the same dataset, are disjoint sets. *)
Theorem folds_no_leakage (get_domain : Text.str → Text.str)
    (assign : Text.str → nat) filename only_lang limit n_folds
    s flt urls folds s1 f train_idx test_idx s2 train_domains test_domains s3 :
  Driver.main_folds get_domain assign filename only_lang limit n_folds s
  = (Runtime.Ok (flt, urls, folds), s1) →
  folds !! f = Some (train_idx, test_idx) →
  Runtime.files s2 = Runtime.files s →
  Driver.check_domains get_domain
    (Reader.data_iter (Driver.reader filename limit) flt) train_idx test_idx s2
  = (Runtime.Ok (train_domains, test_domains), s3) →
  (list_to_set test_domains : gset Text.str) ## list_to_set train_domains.
Proof.
  intros Hmain Hf Hfiles Hcheck.
  apply main_folds_inv in Hmain as (objs & Hobjs & -> & -> & ->).
  apply list_lookup_fmap_Some in Hf as (f' & [= -> ->] & Hf').
  revert Hcheck. unfold Driver.check_domains.
  rewrite bind_run, (data_iter_ok _ _ _ _ _ objs) by congruence.
  rewrite bind_run, (data_iter_ok _ _ _ _ _ objs) by (simpl; congruence).
  intros [= <- <- _].
  apply elem_of_disjoint.
  intros d (b & -> & Hb)%elem_of_list_to_set%list_elem_of_fmap
           (a & Ha' & Ha)%elem_of_list_to_set%list_elem_of_fmap.
  apply (fetched_item_selected
           (λ u, Views.fold_of get_domain assign u = f')) in Hb.
  apply (fetched_item_selected
           (λ u, Views.fold_of get_domain assign u ≠ f')) in Ha.
  unfold Views.fold_of in Ha, Hb. simpl in Ha, Hb. congruence.
Qed.

(** C4. When the file is there and every domain group is assigned one
    of the [n_folds] folds, [main] gets its folds, one per fold number,
    and every retained identity is in exactly one fold's test split: the
    test splits together are a rearrangement of the retained identities,
    which are pairwise distinct. *)
Theorem folds_partition (get_domain : Text.str → Text.str)
    (assign : Text.str → nat) filename only_lang limit n_folds s objs :
  Runtime.files s !! filename = Some objs →
  (∀ d, assign d < n_folds) →
  ∃ flt urls folds s1,
    Driver.main_folds get_domain assign filename only_lang limit n_folds s
    = (Runtime.Ok (flt, urls, folds), s1)
    ∧ length folds = n_folds
    ∧ concat folds.*2 ≡ₚ urls.*1
    ∧ NoDup urls.*1
    ∧ ∀ i, i ∈ urls.*1 →
        ∃ f, f < n_folds
          ∧ ∀ f' fold, folds !! f' = Some fold → (i ∈ fold.2 ↔ f' = f).
Proof.
  intros Hobjs Hassign.
  destruct (main_folds_ok get_domain assign filename only_lang limit
              n_folds s objs Hobjs) as (s1 & Hmain & _).
  eexists _, _, _, s1. split; [exact Hmain|].
  split; [by rewrite length_fmap, length_seq|].
  split; [by apply test_splits_partition|].
  pose proof (retained_urls_NoDup limit only_lang objs) as Hnd.
  split; [done|].
  intros i (u & Hi & Hu)%list_elem_of_fmap.
  exists (Views.fold_of get_domain assign u). split; [apply Hassign|].
  intros f' fold (f'' & -> & Hf'')%list_lookup_fmap_Some.
  apply lookup_seq in Hf'' as [-> _]. simpl.
  rewrite (elem_of_test_ids get_domain assign _ f' i Hnd u Hu) by done.
  split; congruence.
Qed.

(** ** The featurizer *)

Section FeaturizerFacts.
Import Text Tokenizer Runtime Featurizer.
Variable alnum : codepoint → bool.

(** The loop over the blocks appends the marked tokens of each block
    to the list built so far. *)
Lemma foldl_blocks (acc : list str) (l : list (str * str)) :
  foldl (λ text '(tag, block_text),
           text ++ (tag_marker tag <$> tokenize alnum block_text)) acc l
  = acc ++ concat ((λ b : str * str, tag_marker b.1 <$> tokenize alnum b.2)
                     <$> l).
Proof.
  revert acc. induction l as [|[tag block_text] l IH]; intros acc; simpl.
  - by rewrite app_nil_r.
  - by rewrite IH, app_assoc.
Qed.

Lemma item_to_text_parts it :
  item_to_text alnum it =
  join (lit " ")
    ([text it]
     ++ (if decide (title it = []) then []
         else title_marker <$> tokenize alnum (title it))
     ++ concat ((λ b : str * str, tag_marker b.1 <$> tokenize alnum b.2)
                  <$> default [] (blocks it))).
Proof.
  unfold item_to_text. f_equal.
  rewrite foldl_blocks.
  destruct (decide (title it = [])) as [Ht|Ht].
  - rewrite bool_decide_false by (by intros []). done.
  - rewrite bool_decide_true by done. by rewrite <- app_assoc.
Qed.
End FeaturizerFacts.

(** C5. The featurized text is the [' ']-joined sequence of: the raw
    text, unchanged; then, if and only if the title is not empty, one
    ["__title__"]-prefixed token per token of the title; then, for each
    [(tag, block_text)] of the blocks in order, one ["__tag__"]-prefixed
    token per token of the block text.  With title ["Foo"] and the one
    block [("h1", "Bar")] the result is the text followed by
    ["__title__Foo"] and ["__h1__Bar"], which the tokenizer reads as
    tokens of their own, apart from a bare ["foo"] or ["bar"] of the
    body. *)
Theorem item_to_text_spec (alnum : Text.codepoint → bool) :
  Text.agrees_on_ascii alnum →
  (∀ it,
     Featurizer.item_to_text alnum it =
     Text.join (Text.lit " ")
       ([Runtime.text it]
        ++ (if decide (Runtime.title it = []) then []
            else Featurizer.title_marker
                   <$> Tokenizer.tokenize alnum (Runtime.title it))
        ++ concat ((λ b : Text.str * Text.str,
                      Featurizer.tag_marker b.1
                        <$> Tokenizer.tokenize alnum b.2)
                     <$> default [] (Runtime.blocks it))))
  ∧ (∀ i u st lg body,
       Featurizer.item_to_text alnum
         (Runtime.Item i u st lg body (Text.lit "Foo")
            (Some [(Text.lit "h1", Text.lit "Bar")]))
       = body ++ Text.lit " __title__Foo __h1__Bar")
  ∧ (∀ i u st lg,
       Tokenizer.tokenize alnum
         (Featurizer.item_to_text alnum
            (Runtime.Item i u st lg (Text.lit "foo bar") (Text.lit "Foo")
               (Some [(Text.lit "h1", Text.lit "Bar")])))
       = [Text.lit "foo"; Text.lit "bar";
          Text.lit "__title__Foo"; Text.lit "__h1__Bar"]).
Proof.
  intros Hag. split; [apply item_to_text_parts|].
  assert (Hbody : ∀ i u st lg body,
    Featurizer.item_to_text alnum
      (Runtime.Item i u st lg body (Text.lit "Foo")
         (Some [(Text.lit "h1", Text.lit "Bar")]))
    = body ++ Text.lit " __title__Foo __h1__Bar").
  { intros. rewrite item_to_text_parts. cbn [Runtime.title Runtime.blocks
      Runtime.text default]. unfold id. cbn [fmap list_fmap concat fst snd].
    rewrite (tokenize_ascii alnum "Foo" Hag) by reflexivity.
    rewrite (tokenize_ascii alnum "Bar" Hag) by reflexivity.
    reflexivity. }
  split; [exact Hbody|].
  intros. rewrite Hbody.
  change (Text.lit "foo bar" ++ Text.lit " __title__Foo __h1__Bar")
    with (Text.lit "foo bar __title__Foo __h1__Bar").
  rewrite (tokenize_ascii alnum _ Hag) by reflexivity.
  vm_compute. reflexivity.
Qed.

(** ** The aggregation of the metrics *)

Section AggregateFacts.
Import Text Aggregate Views.
Context {float : Type}.
Implicit Types all : gmap str (list float).

Lemma str_leb_total (a b : str) : str_leb a b = true ∨ str_leb b a = true.
Proof.
  revert b. induction a as [|x a IH]; intros [|y b]; simpl; auto.
  destruct (N.ltb_spec x y); [by left|].
  destruct (N.ltb_spec y x); [by right|].
  assert (x = y) as -> by lia. rewrite N.eqb_refl. apply IH.
Qed.

Global Instance key_le_total : Total (key_le float).
Proof. intros a b. apply str_leb_total. Qed.

Lemma lookup_append_metric all kv k :
  append_metric float all kv !! k =
  if decide (kv.1 = k) then Some (default [] (all !! k) ++ [kv.2])
  else all !! k.
Proof.
  unfold append_metric. destruct (decide (kv.1 = k)) as [<-|Hne].
  - by rewrite lookup_insert_eq.
  - by rewrite lookup_insert_ne.
Qed.

(** After the loop, a name is bound to the values reported under it,
    oldest first, after those it was bound to before. *)
Lemma lookup_foldl_append all (l : list (str * float)) k :
  foldl (append_metric float) all l !! k =
  match (filter (λ kv : str * float, kv.1 = k) l).*2 with
  | [] => all !! k
  | vs => Some (default [] (all !! k) ++ vs)
  end.
Proof.
  revert all. induction l as [|kv l IH]; intros all; [done|].
  cbn [foldl]. rewrite IH, filter_cons, lookup_append_metric.
  destruct (decide (kv.1 = k)) as [Hk|Hk]; [|done].
  rewrite fmap_cons. cbn [default from_option id].
  destruct ((filter (λ kv0 : str * float, kv0.1 = k) l).*2) as [|v vs].
  - done.
  - by rewrite <- app_assoc.
Qed.

Lemma collect_concat (arrivals : list (list (str * float))) all :
  foldl (λ all_metrics eval_metrics,
           foldl (append_metric float) all_metrics eval_metrics)
        all arrivals
  = foldl (append_metric float) all (concat arrivals).
Proof.
  revert all. induction arrivals as [|a arrivals IH]; intros all; [done|].
  simpl. by rewrite foldl_app, IH.
Qed.

Lemma lookup_collect (arrivals : list (list (str * float))) k vs :
  collect float arrivals !! k = Some vs ↔
  values_of arrivals k ≠ [] ∧ vs = values_of arrivals k.
Proof.
  unfold collect. rewrite collect_concat, lookup_foldl_append.
  unfold values_of. rewrite lookup_empty.
  destruct ((filter (λ kv : str * float, kv.1 = k) (concat arrivals)).*2);
    simpl; [split; [done | by intros [? _]]|].
  split; [by intros [= <-]|by intros [_ ->]].
Qed.
End AggregateFacts.

(** C8. The report has one line per metric name that some fold
    reported, in the order of the names; the line of a name carries the
    mean ([np.mean]) of the values that the folds reported under that
    name, in order of arrival, and twice their standard deviation
    ([np.std(v) * 2]). *)
Theorem report_mean_and_twice_std (float : Type)
    (np_mean np_std : list float → float) (fmul : float → float → float)
    (two : float) (arrivals : list (list (Text.str * float))) :
  let lines := Aggregate.report float np_mean np_std fmul two arrivals in
  (∀ k m sd,
     (k, m, sd) ∈ lines ↔
     Views.values_of arrivals k ≠ []
     ∧ m = np_mean (Views.values_of arrivals k)
     ∧ sd = fmul (np_std (Views.values_of arrivals k)) two)
  ∧ NoDup ((λ line, line.1.1) <$> lines)
  ∧ Sorted (λ a b, Aggregate.str_leb a b = true)
           ((λ line, line.1.1) <$> lines).
Proof.
  intros lines. unfold lines, Aggregate.report.
  set (all := Aggregate.collect float arrivals).
  set (sorted := merge_sort (Aggregate.key_le float) (map_to_list all)).
  assert (Hperm : sorted ≡ₚ map_to_list all)
    by apply merge_sort_Permutation.
  split; [|split].
  - intros k m sd. rewrite list_elem_of_fmap. split.
    + intros ([k' vs] & [= -> -> ->] & Hin). rewrite Hperm in Hin.
      apply elem_of_map_to_list, lookup_collect in Hin as [Hne ->]. done.
    + intros (Hne & -> & ->). exists (k, Views.values_of arrivals k).
      split; [done|]. rewrite Hperm.
      apply elem_of_map_to_list, lookup_collect. done.
  - rewrite <- list_fmap_compose.
    change (NoDup (sorted.*1)). rewrite Hperm.
    apply NoDup_fst_map_to_list.
  - rewrite <- list_fmap_compose.
    apply (Sorted_fmap _ (Aggregate.key_le float)); [by intros [] []|].
    apply Sorted_merge_sort. apply _.
Qed.

(** ** The trainer *)

Section TrainerFacts.
Import Text Runtime Reader Featurizer Trainer Driver Views.
Variable alnum : codepoint → bool.
Variable oracle : nat → list nat → list nat.
Variables (filename : string) (limit : option Z) (flt : option (gset nat)).
Variable classes : list bool.

Local Abbreviation data := (data_iter (reader filename limit) flt).

Lemma batches_single {A} (l : list A) size :
  0 < length l → length l ≤ size → batches l size = [l].
Proof.
  intros Hpos Hle. unfold batches.
  destruct size as [|size]; [lia|].
  destruct l as [|x l]; [simpl in Hpos; lia|].
  cbn [length batches_from].
  rewrite take_ge, drop_ge by done. by destruct (length l).
Qed.

Lemma partial_fits_app tr1 tr2 :
  partial_fits (tr1 ++ tr2) = partial_fits tr1 ++ partial_fits tr2.
Proof. apply filter_app. Qed.

(** One batch: the items are fetched and the classifier is updated
    once. *)
Lemma batch_step indices s objs :
  files s !! filename = Some objs →
  ∃ s',
    (items ← data (Some indices);
     let '(_x, _y) := get_xy alnum items in
     emit (PartialFit _x _y classes)) s = (Ok tt, s')
    ∧ files s' = files s ∧ heap s' = heap s ∧ shuffles s' = shuffles s
    ∧ length (partial_fits (trace s'))
      = S (length (partial_fits (trace s))).
Proof.
  intros Hf. rewrite bind_run, (data_iter_ok _ _ _ _ _ objs Hf).
  destruct (get_xy alnum _) as [x y].
  eexists. split; [reflexivity|]. cbn [files heap shuffles trace touch].
  repeat split. rewrite !partial_fits_app, !length_app. simpl. lia.
Qed.

Lemma batches_loop (bs : list (list nat)) s objs :
  files s !! filename = Some objs →
  ∃ s',
    for_each bs (λ indices,
      items ← data (Some indices);
      let '(_x, _y) := get_xy alnum items in
      emit (PartialFit _x _y classes)) s = (Ok tt, s')
    ∧ files s' = files s ∧ heap s' = heap s ∧ shuffles s' = shuffles s
    ∧ length (partial_fits (trace s'))
      = length (partial_fits (trace s)) + length bs.
Proof.
  revert s. induction bs as [|b bs IH]; intros s Hf.
  - exists s. simpl. repeat split; lia.
  - cbn [for_each]. rewrite bind_run.
    destruct (batch_step b s objs Hf) as (s1 & -> & Hf1 & Hh1 & Hs1 & Ht1).
    destruct (IH s1) as (s2 & -> & Hf2 & Hh2 & Hs2 & Ht2); [congruence|].
    exists s2. split; [done|]. simpl. repeat split; try congruence. lia.
Qed.

Lemma shuffle_run r s :
  np_random_shuffle oracle r s
  = (Ok tt, State (files s) (alter (oracle (shuffles s)) r (heap s))
                  (S (shuffles s)) (trace s)).
Proof. reflexivity. Qed.

(** One epoch of [train_clf]. *)
Lemma epochs_loop (epochs : list nat) r batch_size s objs l :
  files s !! filename = Some objs →
  heap s !! r = Some l →
  ∃ s',
    for_each epochs (λ epoch,
      np_random_shuffle oracle r;;
      lst ← read_list r;
      for_each (batches lst batch_size) (λ indices,
        items ← data (Some indices);
        let '(_x, _y) := get_xy alnum items in
        emit (PartialFit _x _y classes))) s = (Ok tt, s')
    ∧ files s' = files s
    ∧ heap s' !! r = Some (shuffled oracle (shuffles s) (length epochs) l)
    ∧ (∀ r', r' ≠ r → heap s' !! r' = heap s !! r')
    ∧ shuffles s' = shuffles s + length epochs
    ∧ length (partial_fits (trace s'))
      = length (partial_fits (trace s))
        + batch_count oracle (shuffles s) (length epochs) l batch_size.
Proof.
  revert s l. induction epochs as [|e epochs IH]; intros s l Hf Hl.
  - exists s. simpl. repeat split; [done|lia|lia].
  - cbn [for_each]. rewrite bind_run, bind_run, shuffle_run.
    set (s1 := State _ _ _ _).
    assert (Hl1 : heap s1 !! r = Some (oracle (shuffles s) l)).
    { unfold s1. simpl. by rewrite lookup_alter_eq, Hl. }
    rewrite bind_run. unfold read_list at 1. rewrite Hl1.
    cbn [default from_option id].
    destruct (batches_loop (batches (oracle (shuffles s) l) batch_size)
                s1 objs Hf) as (s2 & -> & Hf2 & Hh2 & Hs2 & Ht2).
    destruct (IH s2 (oracle (shuffles s) l))
      as (s3 & -> & Hf3 & Hh3 & Hfr3 & Hs3 & Ht3);
      [rewrite Hf2; exact Hf | rewrite Hh2; exact Hl1 |].
    exists s3. split; [done|]. cbn [length shuffled batch_count].
    rewrite Hs2 in Hh3, Hs3, Ht3. subst s1. simpl in *.
    split; [congruence|]. split; [done|]. split.
    + intros r' Hr'. rewrite Hfr3, Hh2 by done.
      by rewrite lookup_alter_ne.
    + split; [lia|]. rewrite Ht3, Ht2. lia.
Qed.

Lemma shuffled_Permutation k n l :
  (∀ i l', oracle i l' ≡ₚ l') → shuffled oracle k n l ≡ₚ l.
Proof.
  intros Hperm. revert k l. induction n as [|n IH]; intros k l; simpl.
  - done.
  - by rewrite IH, Hperm.
Qed.

Lemma batch_count_small k n l size :
  (∀ i l', oracle i l' ≡ₚ l') →
  0 < length l → length l ≤ size →
  batch_count oracle k n l size = n.
Proof.
  intros Hperm. revert k l. induction n as [|n IH]; intros k l Hpos Hle.
  - done.
  - pose proof (Permutation_length (Hperm k l)) as Hlen. simpl.
    rewrite batches_single, IH by lia. done.
Qed.

Lemma train_clf_run r n_epochs batch_size s objs l :
  files s !! filename = Some objs →
  heap s !! r = Some l →
  ∃ s',
    train_clf alnum oracle data r classes n_epochs batch_size s = (Ok tt, s')
    ∧ files s' = files s
    ∧ heap s' !! r = Some (shuffled oracle (shuffles s) n_epochs l)
    ∧ (∀ r', r' ≠ r → heap s' !! r' = heap s !! r')
    ∧ length (partial_fits (trace s'))
      = length (partial_fits (trace s))
        + batch_count oracle (shuffles s) n_epochs l batch_size.
Proof.
  intros Hf Hl. unfold train_clf.
  destruct (epochs_loop (seq 0 n_epochs) r batch_size s objs l Hf Hl)
    as (s' & Hrun & Hf' & Hh' & Hfr' & _ & Ht').
  rewrite length_seq in *. by exists s'.
Qed.

Lemma check_class_weights_run r test_y s objs l :
  files s !! filename = Some objs →
  heap s !! r = Some l →
  ∃ ys s',
    check_class_weights oracle classes data r test_y s = (Ok ys, s')
    ∧ files s' = files s
    ∧ heap s' !! r = Some (oracle (shuffles s) l)
    ∧ (∀ r', r' ≠ r → heap s' !! r' = heap s !! r').
Proof.
  intros Hf Hl. unfold check_class_weights.
  rewrite bind_run, shuffle_run. set (s1 := State _ _ _ _).
  assert (Hl1 : heap s1 !! r = Some (oracle (shuffles s) l)).
  { unfold s1. simpl. by rewrite lookup_alter_eq, Hl. }
  rewrite bind_run. unfold read_list at 1. rewrite Hl1.
  cbn [default from_option id].
  rewrite bind_run, (data_iter_ok _ _ _ _ _ objs) by done.
  eexists _, _. split; [reflexivity|]. simpl. split; [done|].
  split; [by rewrite lookup_alter_eq, Hl|].
  intros r' Hr'. by rewrite lookup_alter_ne.
Qed.
End TrainerFacts.

(** ** The distribution of the groups over the lightest folds *)

Section LightestFacts.
Import Folds.
Context {L : Type} `{EqDecision L}.

Lemma lightest_lt (weights : list nat) :
  weights ≠ [] → lightest weights < length weights.
Proof.
  intros Hne. unfold lightest.
  destruct (list_find _ weights) as [[i w]|] eqn:Hfind; simpl.
  - apply list_find_Some in Hfind as (Hi & _). by apply lookup_lt_Some in Hi.
  - destruct weights; [done|simpl; lia].
Qed.

Lemma distribute_bounded (labels : list L) n_folds :
  0 < n_folds →
  Forall (λ p : L * nat, p.2 < n_folds) (distribute labels n_folds).
Proof.
  intros Hpos. unfold distribute.
  set (step := λ '(weights, chosen) l, _).
  assert (Hinv : ∀ groups weights chosen,
    length weights = n_folds →
    Forall (λ p : L * nat, p.2 < n_folds) chosen →
    Forall (λ p : L * nat, p.2 < n_folds)
           (foldl step (weights, chosen) groups).2).
  { induction groups as [|l groups IH]; intros weights chosen Hlen Hch.
    - done.
    - cbn [foldl]. unfold step at 2. apply IH.
      + by rewrite length_alter.
      + apply Forall_app. split; [done|]. constructor; [|done]. simpl.
        rewrite <- Hlen. apply lightest_lt. intros ->. simpl in Hlen. lia. }
  apply Hinv; [by rewrite length_replicate | constructor].
Qed.

(** Every label is assigned one of the [n_folds] folds. *)
Lemma label_to_fold_lt (labels : list L) n_folds l :
  0 < n_folds → label_to_fold labels n_folds l < n_folds.
Proof.
  intros Hpos. unfold label_to_fold.
  destruct (list_find _ (distribute labels n_folds)) as [[i [l' f]]|]
    eqn:Hfind; simpl; [|done].
  apply list_find_Some in Hfind as (Hi & _).
  apply list_elem_of_lookup_2 in Hi.
  by apply (proj1 (Forall_forall _ _) (distribute_bounded labels n_folds Hpos))
    in Hi.
Qed.
End LightestFacts.

Lemma rotating_Permutation i l : Sample.rotating i l ≡ₚ l.
Proof.
  unfold Sample.rotating. rewrite Permutation_app_comm. by rewrite take_drop.
Qed.

(** C7 (as amended). When [train_clf] is invoked with a non-empty list
    of training ids shorter than one batch, over a file that is there,
    it completes without error and performs exactly one [partial_fit]
    per epoch: [n_epochs] updates in all, two with the default
    [n_epochs=2]. *)
Theorem train_clf_small_set (alnum : Text.codepoint → bool)
    (oracle : nat → list nat → list nat) filename limit flt
    (train_idx : Runtime.loc) classes n_epochs batch_size s objs lst :
  Runtime.files s !! filename = Some objs →
  Runtime.heap s !! train_idx = Some lst →
  (∀ i l, oracle i l ≡ₚ l) →
  0 < length lst < batch_size →
  ∃ s',
    Trainer.train_clf alnum oracle
      (Reader.data_iter (Driver.reader filename limit) flt)
      train_idx classes n_epochs batch_size s = (Runtime.Ok tt, s')
    ∧ length (Runtime.partial_fits (Runtime.trace s'))
      = length (Runtime.partial_fits (Runtime.trace s)) + n_epochs.
Proof.
  intros Hf Hl Hperm [Hpos Hlt].
  destruct (train_clf_run alnum oracle filename limit flt classes train_idx
              n_epochs batch_size s objs lst Hf Hl)
    as (s' & Hrun & _ & _ & _ & Hfits).
  exists s'. split; [done|].
  rewrite Hfits, (batch_count_small oracle _ _ _ _ Hperm) by lia. done.
Qed.

Lemma train_clf_small_set_witness :
  ∃ s',
    Trainer.train_clf Text.ascii_alnum Sample.rotating
      (Reader.data_iter (Driver.reader "pages.pkl" None) None)
      0 [false; true] Trainer.default_n_epochs Trainer.default_batch_size
      Sample.state = (Runtime.Ok tt, s')
    ∧ length (Runtime.partial_fits (Runtime.trace s')) = 2.
Proof.
  apply (train_clf_small_set Text.ascii_alnum Sample.rotating "pages.pkl"
           None None 0 [false; true] Trainer.default_n_epochs
           Trainer.default_batch_size Sample.state Sample.pages [0; 1; 5]).
  - reflexivity.
  - reflexivity.
  - apply rotating_Permutation.
  - unfold Trainer.default_batch_size. simpl. lia.
Defined.

(** C7 as stated fails: with three training ids, fewer than the default
    batch size of 5000, and the default two epochs, [train_clf]
    completes and has updated the classifier twice, not once. *)
Lemma train_clf_one_update_counterexample :
  let run :=
    Trainer.train_clf Text.ascii_alnum Sample.rotating
      (Reader.data_iter (Driver.reader "pages.pkl" None) None)
      0 [false; true] Trainer.default_n_epochs Trainer.default_batch_size
      Sample.state in
  Runtime.heap Sample.state !! 0 = Some [0; 1; 5]
  ∧ 0 < length [0; 1; 5] < Trainer.default_batch_size
  ∧ run.1 = Runtime.Ok tt
  ∧ length (Runtime.partial_fits (Runtime.trace run.2)) = 2
  ∧ length (Runtime.partial_fits (Runtime.trace run.2)) ≠ 1.
Proof.
  cbv zeta. split; [reflexivity|].
  split; [unfold Trainer.default_batch_size; simpl; lia|].
  split; [vm_compute; reflexivity|].
  split; [vm_compute; reflexivity|]. vm_compute. discriminate.
Qed.

(** C10. [train_clf] and [check_class_weights] shuffle the caller's list
    of train ids in place: after [train_clf] the list object holds what
    [n_epochs] successive shuffles of the generator made of it, after
    [check_class_weights] what one shuffle made of it; it is a
    rearrangement of the original ids, in the order the generator chose
    and not the original one kept aside; no other list is touched. *)
Theorem train_idx_shuffled_in_place (alnum : Text.codepoint → bool)
    (oracle : nat → list nat → list nat) filename limit flt
    (train_idx : Runtime.loc) classes n_epochs batch_size test_y s objs lst :
  Runtime.files s !! filename = Some objs →
  Runtime.heap s !! train_idx = Some lst →
  (∀ i l, oracle i l ≡ₚ l) →
  let data := Reader.data_iter (Driver.reader filename limit) flt in
  (∃ s',
     Trainer.train_clf alnum oracle data train_idx classes n_epochs
       batch_size s = (Runtime.Ok tt, s')
     ∧ Runtime.heap s' !! train_idx
       = Some (Views.shuffled oracle (Runtime.shuffles s) n_epochs lst)
     ∧ Views.shuffled oracle (Runtime.shuffles s) n_epochs lst ≡ₚ lst
     ∧ ∀ r, r ≠ train_idx → Runtime.heap s' !! r = Runtime.heap s !! r)
  ∧ (∃ ys s',
       Trainer.check_class_weights oracle classes data train_idx test_y s
       = (Runtime.Ok ys, s')
       ∧ Runtime.heap s' !! train_idx
         = Some (oracle (Runtime.shuffles s) lst)
       ∧ oracle (Runtime.shuffles s) lst ≡ₚ lst
       ∧ ∀ r, r ≠ train_idx → Runtime.heap s' !! r = Runtime.heap s !! r).
Proof.
  intros Hf Hl Hperm data. split.
  - destruct (train_clf_run alnum oracle filename limit flt classes train_idx
                n_epochs batch_size s objs lst Hf Hl)
      as (s' & Hrun & _ & Hheap & Hframe & _).
    exists s'. split; [done|]. split; [done|].
    split; [by apply shuffled_Permutation|done].
  - destruct (check_class_weights_run oracle filename limit flt classes
                train_idx test_y s objs lst Hf Hl)
      as (ys & s' & Hrun & _ & Hheap & Hframe).
    exists ys, s'. split; [done|]. split; [done|]. split; [apply Hperm|done].
Qed.

Lemma train_idx_shuffled_in_place_witness :
  (∃ s',
     Trainer.train_clf Text.ascii_alnum Sample.rotating
       (Reader.data_iter (Driver.reader "pages.pkl" None) None)
       0 [false; true] 2 5000 Sample.state = (Runtime.Ok tt, s')
     ∧ Runtime.heap s' !! 0 = Some [5; 0; 1])
  ∧ (∃ ys s',
       Trainer.check_class_weights Sample.rotating [false; true]
         (Reader.data_iter (Driver.reader "pages.pkl" None) None)
         0 [] Sample.state = (Runtime.Ok ys, s')
       ∧ Runtime.heap s' !! 0 = Some [1; 5; 0]).
Proof.
  destruct (train_idx_shuffled_in_place Text.ascii_alnum Sample.rotating
              "pages.pkl" None None 0 [false; true] 2 5000 [] Sample.state
              Sample.pages [0; 1; 5] eq_refl eq_refl rotating_Permutation)
    as [(s1 & Hrun1 & Hheap1 & _) (ys & s2 & Hrun2 & Hheap2 & _)].
  split.
  - exists s1. split; [exact Hrun1|exact Hheap1].
  - exists ys, s2. split; [exact Hrun2|exact Hheap2].
Defined.

(** ** The properties at the sample dataset *)

Lemma file_reader_yields_witness :
  ∃ items s',
    Reader.file_reader "pages.pkl" None (Some 5%Z) Sample.state
    = (Runtime.Ok items, s')
    ∧ ∀ it, it ∈ items →
        (Z.of_nat (Runtime.idx it) < 5)%Z
        ∧ (Runtime.status it = 200%Z ∨ Runtime.status it = 404%Z).
Proof.
  eexists _, _. split; [vm_compute; reflexivity|].
  intros it Hit.
  destruct (file_reader_yields "pages.pkl" None (Some 5%Z) Sample.state
              _ _ eq_refl it Hit) as (_ & Hlimit & _ & Hstatus).
  split; [by apply Hlimit|exact Hstatus].
Defined.

Lemma file_reader_stable_witness :
  Reader.idx_values
    (Reader.file_reader "pages.pkl" None None Sample.state).1
  = Reader.idx_values
      (Reader.file_reader "pages.pkl" None None
         (Reader.file_reader "pages.pkl" None None Sample.state).2).1.
Proof.
  apply (file_reader_stable "pages.pkl" None Sample.state
           (Reader.file_reader "pages.pkl" None None Sample.state).2).
  reflexivity.
Defined.

Lemma to_data_idx_strict_witness :
  Resolve.to_data_idx [0%Z; 7%Z]
    [(0, Text.lit "a.com/1"); (4, Text.lit "c.net/z")]
  = Runtime.Raise Runtime.AssertionError.
Proof.
  pose proof (to_data_idx_strict [0%Z; 7%Z]
                [(0, Text.lit "a.com/1"); (4, Text.lit "c.net/z")]) as H.
  destruct (Resolve.to_data_idx _ _) as [result|e].
  - destruct H as [_ H]. specialize (H 7%Z).
    exfalso. assert (0 ≤ 7 < 2)%Z as [_ Hlt]; [|lia].
    apply H. apply elem_of_cons. right. apply elem_of_cons. by left.
  - by destruct H as [-> _].
Defined.

Lemma folds_no_leakage_witness :
  (list_to_set [Text.lit "c.net"; Text.lit "b.org"] : gset Text.str)
  ## list_to_set [Text.lit "a.com"; Text.lit "a.com"].
Proof.
  eapply (folds_no_leakage Sample.domain Sample.assign "pages.pkl"
            (Text.lit "en") None 2 Sample.state _ _ _ _ 1 _ _ Sample.state).
  - vm_compute. reflexivity.
  - reflexivity.
  - reflexivity.
  - vm_compute. reflexivity.
Defined.

Lemma folds_partition_witness :
  ∃ flt urls folds s1,
    Driver.main_folds Sample.domain Sample.assign "pages.pkl"
      (Text.lit "en") None 2 Sample.state
    = (Runtime.Ok (flt, urls, folds), s1)
    ∧ length folds = 2
    ∧ concat folds.*2 ≡ₚ urls.*1.
Proof.
  destruct (folds_partition Sample.domain Sample.assign "pages.pkl"
              (Text.lit "en") None 2 Sample.state Sample.pages eq_refl)
    as (flt & urls & folds & s1 & Hrun & Hlen & Hperm & _).
  - intros d. apply label_to_fold_lt. lia.
  - by exists flt, urls, folds, s1.
Defined.

Lemma item_to_text_spec_witness :
  Featurizer.item_to_text Text.ascii_alnum
    (Runtime.Item 0 (Text.lit "a.com/1") 200 None (Text.lit "foo bar")
       (Text.lit "Foo") (Some [(Text.lit "h1", Text.lit "Bar")]))
  = Text.lit "foo bar __title__Foo __h1__Bar".
Proof.
  destruct (item_to_text_spec Text.ascii_alnum) as (_ & Hexample & _).
  - intros c _. reflexivity.
  - apply Hexample.
Defined.

(** ** More on the stream reader and the data access *)

Section ReaderMore.
Import Text Runtime Reader Driver Views.

(** What the filters let through of a pass is what a pass without
    index set and limit yields, filtered afterwards. *)
Lemma yielded_from_filter limit indices k objs :
  yielded_from limit indices k objs
  = filter (λ it, wanted indices (idx it) = true
                  ∧ reached limit (idx it) = false)
           (yielded_from None None k objs).
Proof.
  revert k. induction objs as [|x objs IH]; intros k; [done|].
  cbn [yielded_from]. rewrite filter_app, <- IH. f_equal.
  cbn [reached wanted negb andb].
  destruct (status_ok x); [|by rewrite andb_false_r].
  rewrite andb_true_r, filter_cons, filter_nil. simpl.
  destruct (reached limit k), (wanted indices k); simpl; try done;
    case_decide as Hd;
    first [done | by destruct Hd as [? ?] | destruct Hd; by split].
Qed.

Lemma yielded_from_indices limit indices k objs :
  yielded_from limit indices k objs
  = filter (λ it, wanted indices (idx it) = true)
           (yielded_from limit None k objs).
Proof.
  rewrite (yielded_from_filter limit indices),
          (yielded_from_filter limit None).
  rewrite list_filter_filter. apply list_filter_iff. intros it. simpl. tauto.
Qed.

Lemma yielded_from_NoDup limit indices k objs :
  NoDup (idx <$> yielded_from limit indices k objs).
Proof. apply sorted_lt_NoDup, yielded_from_sorted. Qed.

Lemma filter_idx_absent (l : list item) (i : nat) :
  i ∉ idx <$> l → filter (λ it, idx it = i) l = [].
Proof.
  induction l as [|x l IH]; [done|]. rewrite fmap_cons.
  intros Hi. rewrite filter_cons_False.
  - apply IH. intros Hin. apply Hi. by right.
  - intros Heq. apply Hi. rewrite Heq. by left.
Qed.

(** Among items with pairwise distinct [idx], selecting the [idx] of
    one of them selects that item alone. *)
Lemma filter_idx_singleton (l : list item) it0 :
  NoDup (idx <$> l) → it0 ∈ l →
  filter (λ it, idx it = idx it0) l = [it0].
Proof.
  induction l as [|x l IH]; [by intros _ ?%elem_of_nil|].
  rewrite fmap_cons. intros [Hx Hnd]%NoDup_cons Hin. rewrite filter_cons.
  apply elem_of_cons in Hin as [->|Hin].
  - rewrite decide_True by done. by rewrite filter_idx_absent.
  - rewrite decide_False; [by apply IH|].
    intros Heq. apply Hx. rewrite Heq. by apply list_elem_of_fmap_2.
Qed.

Lemma elem_of_lang_indices limit only_lang objs it :
  it ∈ yielded_from limit None 0 objs →
  idx it ∈ lang_indices limit only_lang objs ↔ lang it = Some only_lang.
Proof.
  intros Hit. unfold lang_indices.
  rewrite elem_of_list_to_set, list_elem_of_fmap. split.
  - intros ([i lg] & Hi & [Hlg Hin]%list_elem_of_filter).
    simpl in Hi, Hlg. subst i lg.
    apply list_elem_of_fmap in Hin as (it' & [= Hidx Hlang] & Hit').
    by rewrite (yielded_item_of_idx _ _ _ _ _ _ Hit Hit' Hidx).
  - intros Hlang. exists (idx it, lang it). split; [done|].
    apply list_elem_of_filter. split; [done|].
    by apply (list_elem_of_fmap_2 (λ it, (idx it, lang it))).
Qed.

Lemma yielded_from_language limit only_lang objs :
  yielded_from limit (Some (lang_indices limit only_lang objs)) 0 objs
  = filter (λ it, lang it = Some only_lang) (yielded_from limit None 0 objs).
Proof.
  rewrite yielded_from_indices. apply filter_ext_elem.
  intros it Hit. simpl. rewrite bool_decide_eq_true.
  by apply elem_of_lang_indices.
Qed.
End ReaderMore.

(** X1. Over a file that is there, [file_reader] yields exactly the
    objects of the stream that pass the three filters, each numbered
    by its position in the stream, and yields them in read order, none
    twice. *)
Theorem file_reader_exact filename indices limit s objs :
  Runtime.files s !! filename = Some objs →
  ∃ items s',
    Reader.file_reader filename indices limit s = (Runtime.Ok items, s')
    ∧ (∀ it, it ∈ items ↔
         ∃ i raw, objs !! i = Some raw ∧ it = Runtime.set_idx raw i
           ∧ (∀ l, limit = Some l → (Z.of_nat i < l)%Z)
           ∧ (∀ chosen : gset nat, indices = Some chosen → i ∈ chosen)
           ∧ (Runtime.status raw = 200%Z ∨ Runtime.status raw = 404%Z))
    ∧ StronglySorted lt (Runtime.idx <$> items).
Proof.
  intros Hf. eexists _, _. split; [by apply file_reader_ok|].
  split; [|apply yielded_from_sorted].
  intros it. rewrite elem_of_yielded_from. simpl.
  split; intros (i & raw & Hi & -> & Hr & Hw & Hs); exists i, raw.
  - by rewrite <- reached_spec, <- wanted_spec, <- status_ok_spec.
  - by rewrite reached_spec, wanted_spec, status_ok_spec.
Qed.

(** X2. A pass with an index set and a limit yields the items of a
    pass without them whose [idx] is in the set and below the limit,
    with the same [idx]: the numbering does not depend on the filters.
    In particular a limit of 0 or less yields nothing. *)
Theorem file_reader_filtered_pass filename indices limit s1 s2 objs :
  Runtime.files s1 !! filename = Some objs →
  Runtime.files s2 !! filename = Some objs →
  ∃ full,
    (Reader.file_reader filename None None s2).1 = Runtime.Ok full
    ∧ (Reader.file_reader filename indices limit s1).1
      = Runtime.Ok
          (filter (λ it, Reader.wanted indices (Runtime.idx it) = true
                         ∧ Reader.reached limit (Runtime.idx it) = false)
                  full)
    ∧ (∀ l, limit = Some l → (l ≤ 0)%Z →
         (Reader.file_reader filename indices limit s1).1 = Runtime.Ok []).
Proof.
  intros Hf1 Hf2. eexists.
  rewrite (file_reader_ok _ _ _ _ _ Hf2), (file_reader_ok _ _ _ _ _ Hf1).
  split; [done|]. simpl.
  split; [by rewrite (yielded_from_filter limit indices)|].
  intros l -> Hl. f_equal. apply yielded_from_reached.
  simpl. apply Z.leb_le. lia.
Qed.

Section DataMore.
Import Text Runtime Reader Driver Views.

Lemma prepare_inv filename only_lang limit s flt urls s' :
  prepare filename only_lang limit s = (Ok (flt, urls), s') →
  ∃ objs, files s !! filename = Some objs
    ∧ flt = language_filter limit only_lang objs
    ∧ urls = retained_urls limit only_lang objs.
Proof.
  intros Hrun. destruct (files s !! filename) as [objs|] eqn:Hf.
  - destruct (prepare_ok filename only_lang limit s objs Hf)
      as (s1 & Hok & _).
    rewrite Hok in Hrun. injection Hrun as <- <- _. by exists objs.
  - destruct (prepare_missing filename only_lang limit s Hf) as (s1 & Hm).
    by rewrite Hm in Hrun.
Qed.

Lemma passed_same_elements flt (ids ids' : list nat) :
  (∀ i, i ∈ ids ↔ i ∈ ids') →
  passed flt (Some ids) = passed flt (Some ids').
Proof.
  intros Hsame.
  assert (list_to_set ids = (list_to_set ids' : gset nat)) as Heq.
  { apply set_eq. intros i. by rewrite !elem_of_list_to_set. }
  unfold passed. destruct flt; simpl; by rewrite Heq.
Qed.

Lemma wanted_passed_singleton flt (i j : nat) :
  wanted (passed flt (Some [i])) j = true ↔ j = i ∧ wanted flt j = true.
Proof.
  destruct flt as [flt|]; simpl; rewrite !bool_decide_eq_true.
  - rewrite elem_of_intersection, elem_of_union, elem_of_singleton.
    split; [by intros [[?|[]%elem_of_empty] ?]|].
    intros [? ?]. split; [by left|done].
  - rewrite elem_of_union, elem_of_singleton.
    split; [by intros [?|[]%elem_of_empty]|]. intros [? _]. by left.
Qed.

(** Fetching one retained id gives back the one item that has it. *)
Lemma yielded_from_single limit flt objs it0 :
  it0 ∈ yielded_from limit flt 0 objs →
  yielded_from limit (passed flt (Some [idx it0])) 0 objs = [it0].
Proof.
  intros Hit0.
  rewrite <- (filter_idx_singleton (yielded_from limit flt 0 objs) it0)
    by (done || apply yielded_from_NoDup).
  rewrite (yielded_from_indices limit (passed _ _)),
          (yielded_from_indices limit flt), list_filter_filter.
  apply list_filter_iff. intros it. simpl. apply wanted_passed_singleton.
Qed.
End DataMore.

(** X3. After the language pass, [data()] yields exactly the items of
    an unfiltered pass whose language is the chosen one, in the same
    order and with the same [idx]. *)
Theorem language_filter_selects filename limit only_lang s objs :
  Runtime.files s !! filename = Some objs →
  ∃ all flt s1 items s2,
    (Driver.reader filename limit None s).1 = Runtime.Ok all
    ∧ Reader.get_lang_indices (Driver.reader filename limit) only_lang s
      = (Runtime.Ok flt, s1)
    ∧ Reader.data_iter (Driver.reader filename limit) (Some flt) None s1
      = (Runtime.Ok items, s2)
    ∧ items = filter (λ it, Runtime.lang it = Some only_lang) all.
Proof.
  intros Hf. eexists _, _, _, _, _.
  split; [unfold Driver.reader; by rewrite (file_reader_ok _ _ _ _ _ Hf)|].
  split; [by apply get_lang_indices_ok|].
  split; [by apply data_iter_ok|].
  simpl. apply yielded_from_language.
Qed.

(** X4. What [data(indices)] fetches does not depend on the order of
    the requested ids nor on their repetition: however the ids were
    shuffled, the items come in read order, each at most once, and
    every one has a requested id. *)
Theorem data_iter_ignores_order filename limit flt (ids ids' : list nat)
    s objs :
  Runtime.files s !! filename = Some objs →
  (∀ i, i ∈ ids ↔ i ∈ ids') →
  ∃ items s',
    Reader.data_iter (Driver.reader filename limit) flt (Some ids) s
    = (Runtime.Ok items, s')
    ∧ Reader.data_iter (Driver.reader filename limit) flt (Some ids') s
      = (Runtime.Ok items, s')
    ∧ StronglySorted lt (Runtime.idx <$> items)
    ∧ ∀ it, it ∈ items → Runtime.idx it ∈ ids.
Proof.
  intros Hf Hsame. eexists _, _.
  split; [by apply data_iter_ok|].
  split; [rewrite (data_iter_ok _ _ _ _ _ objs Hf);
          by rewrite (passed_same_elements flt ids ids')|].
  split; [apply yielded_from_sorted|].
  intros it (i & raw & _ & -> & _ & Hw & _)%elem_of_yielded_from.
  by apply elem_of_passed in Hw.
Qed.

(** X5. Every pair [(idx, url)] that [main] collects in [urls] can be
    fetched back: over the same dataset, [data([idx])] yields exactly
    one item, and it has that [idx] and that url. *)
Theorem urls_round_trip filename only_lang limit s flt urls s1 s2 i u :
  Driver.prepare filename only_lang limit s = (Runtime.Ok (flt, urls), s1) →
  Runtime.files s2 = Runtime.files s →
  (i, u) ∈ urls →
  ∃ it s3,
    Reader.data_iter (Driver.reader filename limit) flt (Some [i]) s2
    = (Runtime.Ok [it], s3)
    ∧ Runtime.idx it = i ∧ Runtime.url it = u.
Proof.
  intros (objs & Hf & -> & ->)%prepare_inv Hfiles Hin.
  unfold Views.retained_urls in Hin.
  apply list_elem_of_fmap in Hin as (it0 & [= -> ->] & Hit0).
  exists it0. eexists. split; [|done].
  rewrite (data_iter_ok _ _ _ _ _ objs) by congruence.
  by rewrite (yielded_from_single _ _ _ _ Hit0).
Qed.

(** X6. In every fold that [main] hands to the evaluator, the train
    ids and the test ids share no id and together are the retained
    ids. *)
Theorem fold_train_test_complement (get_domain : Text.str → Text.str)
    (assign : Text.str → nat) filename only_lang limit n_folds
    s flt urls folds s1 f train_idx test_idx :
  Driver.main_folds get_domain assign filename only_lang limit n_folds s
  = (Runtime.Ok (flt, urls, folds), s1) →
  folds !! f = Some (train_idx, test_idx) →
  train_idx ++ test_idx ≡ₚ urls.*1
  ∧ ∀ i, i ∈ train_idx → i ∉ test_idx.
Proof.
  intros (objs & Hobjs & -> & -> & ->)%main_folds_inv Hf.
  apply list_lookup_fmap_Some in Hf as (f' & [= -> ->] & _).
  set (urls := Views.retained_urls limit only_lang objs).
  assert (Hperm : Views.train_ids get_domain assign urls f'
                  ++ Views.test_ids get_domain assign urls f' ≡ₚ urls.*1).
  { unfold Views.train_ids, Views.test_ids. rewrite <- fmap_app.
    apply fmap_Permutation. rewrite Permutation_app_comm.
    apply (filter_app_complement
             (λ u, Views.fold_of get_domain assign u = f')). }
  split; [done|].
  pose proof (retained_urls_NoDup limit only_lang objs) as Hnd.
  fold urls in Hnd. rewrite <- Hperm in Hnd.
  by apply NoDup_app in Hnd as (_ & Hdisj & _).
Qed.

(** ** Tokens of composed texts *)

Section TokenizeMore.
Import Text Regex Tokenizer Runtime Featurizer.
Variable alnum : codepoint → bool.

Local Abbreviation W := (word_constituent alnum).

Lemma maximal_runs_from_sep run a sep b :
  W sep = false →
  maximal_runs_from alnum run (a ++ sep :: b)
  = maximal_runs_from alnum run a ++ maximal_runs alnum b.
Proof.
  intros Hsep. revert run. induction a as [|c a IH]; intros run; simpl.
  - by rewrite Hsep.
  - destruct (W c); [apply IH|]. by rewrite IH, app_assoc.
Qed.

Lemma tokenize_sep a sep b :
  W sep = false →
  tokenize alnum (a ++ sep :: b) = tokenize alnum a ++ tokenize alnum b.
Proof.
  intros Hsep. rewrite !tokenize_maximal_runs. unfold spec_tokens, maximal_runs.
  by rewrite maximal_runs_from_sep, filter_app.
Qed.

Lemma tokenize_word r :
  Forall (λ c, W c = true) r → 2 ≤ length r → tokenize alnum r = [r].
Proof.
  intros Hr Hlen. rewrite tokenize_maximal_runs. unfold spec_tokens, maximal_runs.
  rewrite <- (app_nil_r r) at 1. rewrite maximal_runs_from_app by done.
  simpl. destruct r as [|c r]; [simpl in Hlen; lia|]. simpl flush.
  by rewrite filter_cons_True, filter_nil.
Qed.

Lemma token_is_word text r :
  r ∈ tokenize alnum text → Forall (λ c, W c = true) r ∧ 2 ≤ length r.
Proof.
  rewrite tokenize_maximal_runs. unfold spec_tokens.
  intros [Hlen (pre & post & _ & _ & Hw & _)%elem_of_maximal_runs]
    %list_elem_of_filter.
  done.
Qed.

Lemma tokenize_join sep (parts : list str) :
  W sep = false →
  tokenize alnum (join [sep] parts) = concat (tokenize alnum <$> parts).
Proof.
  intros Hsep. induction parts as [|p [|q parts] IH].
  - reflexivity.
  - simpl. by rewrite app_nil_r.
  - change (join [sep] (p :: q :: parts))
      with (p ++ sep :: join [sep] (q :: parts)).
    rewrite tokenize_sep, IH by done. done.
Qed.

Lemma concat_singletons {A} (f : A → list A) (l : list A) :
  (∀ x, x ∈ l → f x = [x]) → concat (f <$> l) = l.
Proof.
  induction l as [|x l IH]; intros Hf; [done|].
  rewrite fmap_cons, concat_cons, Hf by left.
  rewrite IH; [done|]. intros y Hy. apply Hf. by right.
Qed.

Lemma underscore_word : W underscore = true.
Proof. unfold word_constituent. rewrite N.eqb_refl. apply orb_true_r. Qed.

Lemma ascii_word (a : string) :
  agrees_on_ascii alnum →
  forallb (λ c, (c <? 128)%N && word_constituent ascii_alnum c) (lit a) = true →
  Forall (λ c, W c = true) (lit a).
Proof.
  intros Hag Ha. apply Forall_forall. intros c Hc.
  apply list_elem_of_In in Hc.
  apply (proj1 (forallb_forall _ _) Ha) in Hc.
  apply andb_true_iff in Hc as [Hlt Hw]. apply N.ltb_lt in Hlt.
  unfold word_constituent in *. by rewrite (Hag c Hlt).
Qed.

Lemma space_not_word : agrees_on_ascii alnum → W 32%N = false.
Proof.
  intros Hag. unfold word_constituent. by rewrite (Hag 32%N).
Qed.

(** A marked token is one token for the tokenizer. *)
Lemma tokenize_title_marker text w :
  agrees_on_ascii alnum → w ∈ tokenize alnum text →
  tokenize alnum (title_marker w) = [title_marker w].
Proof.
  intros Hag [Hw Hlen]%token_is_word. apply tokenize_word.
  - apply Forall_app. split; [by apply ascii_word|done].
  - unfold title_marker. rewrite length_app. lia.
Qed.

Lemma tokenize_tag_marker tag text w :
  Forall (λ c, W c = true) tag → w ∈ tokenize alnum text →
  tokenize alnum (tag_marker tag w) = [tag_marker tag w].
Proof.
  intros Htag [Hw Hlen]%token_is_word. apply tokenize_word.
  - unfold tag_marker. rewrite !Forall_app.
    assert (Forall (λ c, W c = true) (lit "__")) as Hus
      by (repeat constructor; apply underscore_word).
    done.
  - unfold tag_marker. rewrite !length_app. lia.
Qed.
End TokenizeMore.

(** X7. Cutting a text at a character that is not a word constituent
    cuts its tokens: the tokens of the whole are those of the part
    before followed by those of the part after. *)
Theorem tokenize_splits_at_separator (alnum : Text.codepoint → bool)
    (a b : Text.str) (sep : Text.codepoint) :
  Tokenizer.word_constituent alnum sep = false →
  Tokenizer.tokenize alnum (a ++ sep :: b)
  = Tokenizer.tokenize alnum a ++ Tokenizer.tokenize alnum b.
Proof. apply tokenize_sep. Qed.

Lemma tokenize_splits_at_separator_witness :
  Tokenizer.tokenize Text.ascii_alnum (Text.lit "not found" )
  = Tokenizer.tokenize Text.ascii_alnum (Text.lit "not")
    ++ Tokenizer.tokenize Text.ascii_alnum (Text.lit "found").
Proof.
  apply (tokenize_splits_at_separator Text.ascii_alnum (Text.lit "not")
           (Text.lit "found") 32%N).
  reflexivity.
Defined.

(** X8. When the tags of the blocks are made of word constituents, the
    tokenizer reads the featurized text as the tokens of the raw text
    followed by the marked title tokens and the marked block tokens,
    each marked token being one token: the vectorizer, which is given
    the same [token_pattern], sees every marker [item_to_text] wrote. *)
Theorem tokens_of_featurized_text (alnum : Text.codepoint → bool)
    (it : Runtime.item) :
  Text.agrees_on_ascii alnum →
  (∀ b, b ∈ default [] (Runtime.blocks it) →
        Forall (λ c, Tokenizer.word_constituent alnum c = true) b.1) →
  Tokenizer.tokenize alnum (Featurizer.item_to_text alnum it)
  = Tokenizer.tokenize alnum (Runtime.text it)
    ++ (if decide (Runtime.title it = []) then []
        else Featurizer.title_marker
               <$> Tokenizer.tokenize alnum (Runtime.title it))
    ++ concat ((λ b : Text.str * Text.str,
                  Featurizer.tag_marker b.1 <$> Tokenizer.tokenize alnum b.2)
                 <$> default [] (Runtime.blocks it)).
Proof.
  intros Hag Htags. rewrite item_to_text_parts.
  change (Text.lit " ") with [32%N].
  rewrite tokenize_join by (by apply space_not_word).
  rewrite !fmap_app, !concat_app. simpl. rewrite app_nil_r.
  f_equal. f_equal.
  - destruct (decide (Runtime.title it = [])); [done|].
    apply concat_singletons.
    intros p (w & -> & Hw)%list_elem_of_fmap.
    by apply (tokenize_title_marker alnum (Runtime.title it)).
  - induction (default [] (Runtime.blocks it)) as [|b bs IH]; [done|].
    rewrite !fmap_cons, !concat_cons, fmap_app, concat_app.
    rewrite IH by (intros b' Hb'; apply Htags; by right). f_equal.
    apply concat_singletons.
    intros p (w & -> & Hw)%list_elem_of_fmap.
    apply (tokenize_tag_marker alnum b.1 b.2); [|done].
    apply Htags. by left.
Qed.

Lemma tokens_of_featurized_text_witness :
  Tokenizer.tokenize Text.ascii_alnum
    (Featurizer.item_to_text Text.ascii_alnum
       (Sample.page "a.com/2" 404 "en" "page not found" "Oops"))
  = [Text.lit "page"; Text.lit "not"; Text.lit "found";
     Text.lit "__title__Oops"; Text.lit "__h1__Oops"].
Proof.
  rewrite (tokens_of_featurized_text Text.ascii_alnum).
  - vm_compute. reflexivity.
  - intros c _. reflexivity.
  - intros b Hb. apply list_elem_of_singleton in Hb as ->.
    repeat constructor.
Defined.

(** ** More on the labels and on the trainer *)

Section TrainMore.
Import Text Runtime Reader Featurizer Trainer Driver Views.
Variable alnum : codepoint → bool.

Lemma get_xy_foldl (items : list item) xs ys :
  foldl (λ '(xs, ys) it, (xs ++ [item_to_text alnum it], ys ++ [label it]))
        (xs, ys) items
  = (xs ++ (item_to_text alnum <$> items), ys ++ (label <$> items)).
Proof.
  revert xs ys. induction items as [|it items IH]; intros xs ys; simpl.
  - by rewrite !app_nil_r.
  - by rewrite IH, <- !app_assoc.
Qed.

Lemma get_xy_fmap (items : list item) :
  get_xy alnum items = (item_to_text alnum <$> items, label <$> items).
Proof. unfold get_xy. by rewrite get_xy_foldl. Qed.

Lemma get_ys_fmap (items : list item) : get_ys items = label <$> items.
Proof.
  unfold get_ys.
  assert (H : ∀ ys, foldl (λ ys it, ys ++ [label it]) ys items
                    = ys ++ (label <$> items)).
  { induction items as [|it items IH]; intros ys; simpl.
    - by rewrite app_nil_r.
    - by rewrite IH, <- app_assoc. }
  apply H.
Qed.

(** The number of batches: the length over the size, rounded up. *)
Lemma batches_from_length {A} fuel (l : list A) size :
  0 < size → length l ≤ fuel →
  length (batches_from fuel l size) = (length l + size - 1) / size.
Proof.
  intros Hsize. revert l. induction fuel as [|fuel IH]; intros l Hl.
  - destruct l; [|simpl in Hl; lia]. simpl.
    symmetry. apply Nat.div_small. lia.
  - destruct l as [|x l].
    { simpl. symmetry. apply Nat.div_small. lia. }
    cbn [batches_from length].
    rewrite IH by (rewrite length_drop; simpl in *; lia).
    rewrite length_drop. cbn [length].
    destruct (decide (S (length l) ≤ size)) as [Hle|Hgt].
    + replace (S (length l) - size) with 0 by lia.
      rewrite (Nat.div_small (0 + size - 1)) by lia.
      apply (Nat.div_unique _ _ 1 (S (length l) - 1)); lia.
    + replace (S (length l) + size - 1)
        with ((S (length l) - size + size - 1) + 1 * size) by lia.
      rewrite Nat.div_add by lia. lia.
Qed.

Lemma batches_length {A} (l : list A) size :
  0 < size → length (batches l size) = (length l + size - 1) / size.
Proof.
  intros Hsize. unfold batches. destruct size as [|size]; [lia|].
  by apply batches_from_length.
Qed.

Lemma batch_count_total oracle k n l size :
  (∀ i l', oracle i l' ≡ₚ l') → 0 < size →
  batch_count oracle k n l size = n * ((length l + size - 1) / size).
Proof.
  intros Hperm Hsize. revert k l.
  induction n as [|n IH]; intros k l; [done|].
  cbn [batch_count]. rewrite batches_length, IH by done.
  rewrite (Permutation_length (Hperm k l)). lia.
Qed.
End TrainMore.

(** X9. [get_xy] returns one text and one label per item, in the order
    of the items; the labels are those that [only_ys=True] returns;
    and for items that the reader yielded a label is false exactly for
    status 200 and true exactly for status 404. *)
Theorem get_xy_labels (alnum : Text.codepoint → bool)
    filename indices limit s items s' :
  Reader.file_reader filename indices limit s = (Runtime.Ok items, s') →
  Featurizer.get_xy alnum items
  = (Featurizer.item_to_text alnum <$> items, Featurizer.label <$> items)
  ∧ Featurizer.get_ys items = (Featurizer.get_xy alnum items).2
  ∧ ∀ it, it ∈ items →
      (Featurizer.label it = false ↔ Runtime.status it = 200%Z)
      ∧ (Featurizer.label it = true ↔ Runtime.status it = 404%Z).
Proof.
  intros Hrun. split; [apply get_xy_fmap|].
  split; [by rewrite get_xy_fmap, get_ys_fmap|].
  rewrite file_reader_run in Hrun.
  destruct (Runtime.files s !! filename) as [objs|]; [|done].
  injection Hrun as <- _.
  intros it (i & raw & _ & -> & _ & _ & Hs)%elem_of_yielded_from.
  apply status_ok_spec in Hs. unfold Featurizer.label. simpl.
  rewrite bool_decide_eq_false, bool_decide_eq_true. lia.
Qed.

Lemma get_xy_labels_witness :
  ∃ items s',
    Reader.file_reader "pages.pkl" None None Sample.state
    = (Runtime.Ok items, s')
    ∧ length items = 5
    ∧ Featurizer.get_ys items
      = (Featurizer.get_xy Text.ascii_alnum items).2.
Proof.
  eexists _, _. split; [vm_compute; reflexivity|]. split; [reflexivity|].
  eapply (get_xy_labels Text.ascii_alnum "pages.pkl" None None Sample.state).
  vm_compute. reflexivity.
Defined.

(** X10. Over a file that is there and with a positive batch size,
    [train_clf] completes and updates the classifier once per batch:
    in each epoch as many times as the number of training ids divided
    by the batch size, rounded up; not at all when there is no
    training id. *)
Theorem train_clf_update_count (alnum : Text.codepoint → bool)
    (oracle : nat → list nat → list nat) filename limit flt
    (train_idx : Runtime.loc) classes n_epochs batch_size s objs lst :
  Runtime.files s !! filename = Some objs →
  Runtime.heap s !! train_idx = Some lst →
  (∀ i l, oracle i l ≡ₚ l) →
  0 < batch_size →
  ∃ s',
    Trainer.train_clf alnum oracle
      (Reader.data_iter (Driver.reader filename limit) flt)
      train_idx classes n_epochs batch_size s = (Runtime.Ok tt, s')
    ∧ length (Runtime.partial_fits (Runtime.trace s'))
      = length (Runtime.partial_fits (Runtime.trace s))
        + n_epochs * ((length lst + batch_size - 1) / batch_size).
Proof.
  intros Hf Hl Hperm Hsize.
  destruct (train_clf_run alnum oracle filename limit flt classes train_idx
              n_epochs batch_size s objs lst Hf Hl)
    as (s' & Hrun & _ & _ & _ & Hfits).
  exists s'. split; [done|].
  by rewrite Hfits, (batch_count_total oracle _ _ _ _ Hperm Hsize).
Qed.

Lemma train_clf_update_count_witness :
  ∃ s',
    Trainer.train_clf Text.ascii_alnum Sample.rotating
      (Reader.data_iter (Driver.reader "pages.pkl" None) None)
      0 [false; true] 2 2 Sample.state = (Runtime.Ok tt, s')
    ∧ length (Runtime.partial_fits (Runtime.trace s')) = 4.
Proof.
  apply (train_clf_update_count Text.ascii_alnum Sample.rotating "pages.pkl"
           None None 0 [false; true] 2 2 Sample.state Sample.pages [0; 1; 5]).
  - reflexivity.
  - reflexivity.
  - apply rotating_Permutation.
  - lia.
Defined.

(** ** The fold evaluator *)

Section EvalMore.
Import Text Runtime Reader Resolve Featurizer Trainer Driver Views.
Variable alnum : codepoint → bool.
Variable get_domain : str → str.
Variable oracle : nat → list nat → list nat.
Variables (filename : string) (limit : option Z) (flt : option (gset nat)).
Variable classes : list bool.

Local Abbreviation data := (data_iter (reader filename limit) flt).

Lemma to_data_idx_invalid indices urls i :
  i ∈ indices → ¬ valid_id urls i →
  to_data_idx indices urls = Raise AssertionError.
Proof.
  intros Hi Hnv. rewrite to_data_idx_unfold. cbv zeta.
  rewrite decide_False; [done|].
  intros Hall. apply Hnv.
  apply (proj1 (selected_all_valid (list_to_set indices) urls) Hall).
  by apply elem_of_list_to_set.
Qed.

Lemma to_data_idx_error indices urls e :
  to_data_idx indices urls = Raise e → e = AssertionError.
Proof.
  rewrite to_data_idx_unfold. cbv zeta. case_decide; [done|]. by intros [= <-].
Qed.

Lemma position_invalid urls (ps : list nat) p :
  p ∈ ps → length urls ≤ p →
  to_data_idx (Z.of_nat <$> ps) urls = Raise AssertionError.
Proof.
  intros Hp Hge. apply (to_data_idx_invalid _ _ (Z.of_nat p)).
  - by apply list_elem_of_fmap_2.
  - unfold valid_id. lia.
Qed.

Lemma train_clf_run_full r n_epochs batch_size s objs l :
  files s !! filename = Some objs →
  heap s !! r = Some l →
  ∃ s',
    train_clf alnum oracle data r classes n_epochs batch_size s = (Ok tt, s')
    ∧ files s' = files s
    ∧ heap s' !! r = Some (shuffled oracle (shuffles s) n_epochs l)
    ∧ (∀ r', r' ≠ r → heap s' !! r' = heap s !! r')
    ∧ shuffles s' = shuffles s + n_epochs.
Proof.
  intros Hf Hl. unfold train_clf.
  destruct (epochs_loop alnum oracle filename limit flt classes
              (seq 0 n_epochs) r batch_size s objs l Hf Hl)
    as (s' & Hrun & Hf' & Hh' & Hfr' & Hs' & _).
  rewrite length_seq in *. by exists s'.
Qed.

Lemma check_class_weights_run_full r test_y s objs l :
  files s !! filename = Some objs →
  heap s !! r = Some l →
  ∃ ys s',
    check_class_weights oracle classes data r test_y s = (Ok ys, s')
    ∧ files s' = files s
    ∧ heap s' !! r = Some (oracle (shuffles s) l)
    ∧ (∀ r', r' ≠ r → heap s' !! r' = heap s !! r')
    ∧ shuffles s' = S (shuffles s).
Proof.
  intros Hf Hl. unfold check_class_weights.
  rewrite bind_run, shuffle_run. set (s1 := State _ _ _ _).
  assert (Hl1 : heap s1 !! r = Some (oracle (shuffles s) l)).
  { unfold s1. simpl. by rewrite lookup_alter_eq, Hl. }
  rewrite bind_run. unfold read_list at 1. rewrite Hl1.
  cbn [default from_option id].
  rewrite bind_run, (data_iter_ok _ _ _ _ _ objs) by done.
  eexists _, _. split; [reflexivity|]. simpl. split; [done|].
  split; [by rewrite lookup_alter_eq, Hl|]. split; [|done].
  intros r' Hr'. by rewrite lookup_alter_ne.
Qed.

Lemma check_domains_ok train_idx test_idx s objs :
  files s !! filename = Some objs →
  ∃ ds s',
    check_domains get_domain data train_idx test_idx s = (Ok ds, s')
    ∧ files s' = files s ∧ heap s' = heap s ∧ shuffles s' = shuffles s.
Proof.
  intros Hf. unfold check_domains.
  rewrite bind_run, (data_iter_ok _ _ _ _ _ objs) by done.
  rewrite bind_run, (data_iter_ok _ _ _ _ _ objs) by done.
  eexists _, _. split; [reflexivity|done].
Qed.

(** The diagnostics of the first fold. *)
Lemma first_fold_diagnostics fold_idx r test_idx test_y s objs l :
  files s !! filename = Some objs →
  heap s !! r = Some l →
  ∃ s',
    (if bool_decide (fold_idx = 0) then
       check_class_weights oracle classes data r test_y;;
       lst ← read_list r;
       check_domains get_domain data lst test_idx;;
       mret tt
     else mret tt) s = (Ok tt, s')
    ∧ files s' = files s
    ∧ heap s' !! r
      = Some (shuffled oracle (shuffles s)
                       (if decide (fold_idx = 0) then 1 else 0) l)
    ∧ (∀ r', r' ≠ r → heap s' !! r' = heap s !! r')
    ∧ shuffles s' = shuffles s + (if decide (fold_idx = 0) then 1 else 0).
Proof.
  intros Hf Hl. destruct (decide (fold_idx = 0)) as [->|Hne].
  - rewrite bool_decide_true by done. rewrite bind_run.
    destruct (check_class_weights_run_full r test_y s objs l Hf Hl)
      as (ys & s1 & -> & Hf1 & Hh1 & Hfr1 & Hs1).
    rewrite bind_run. unfold read_list at 1. rewrite Hh1.
    cbn [default from_option id]. rewrite bind_run.
    destruct (check_domains_ok (oracle (shuffles s) l) test_idx s1 objs)
      as (ds & s2 & -> & Hf2 & Hh2 & Hs2); [congruence|].
    exists s2. split; [done|]. simpl. rewrite Hh2, Hs2, Hs1.
    split; [congruence|]. split; [done|]. split; [done|lia].
  - rewrite bool_decide_false by done. exists s.
    split; [done|]. simpl. split; [done|]. split; [done|]. split; [done|lia].
Qed.
End EvalMore.

(** X11. When a fold names a position that [urls] does not have,
    [eval_clf] fails with the assertion error of [to_data_idx] before
    doing anything else: no file is read, no list made or shuffled, no
    update of a classifier. *)
Theorem eval_clf_rejects_bad_fold (alnum : Text.codepoint → bool)
    (get_domain : Text.str → Text.str) (oracle : nat → list nat → list nat)
    fold_idx (fold : list nat * list nat) data urls classes s p :
  p ∈ fold.1 ++ fold.2 →
  length urls ≤ p →
  Driver.eval_clf alnum get_domain oracle fold_idx fold data urls classes s
  = (Runtime.Raise Runtime.AssertionError, s).
Proof.
  intros Hp Hge. unfold Driver.eval_clf.
  rewrite bind_run. unfold Resolve.lift at 1.
  destruct (Resolve.to_data_idx (Z.of_nat <$> fold.1) urls)
    as [train_idx|e] eqn:Htrain.
  - rewrite bind_run. unfold Resolve.lift at 1.
    apply elem_of_app in Hp as [Hp|Hp].
    + by rewrite (position_invalid urls fold.1 p Hp Hge) in Htrain.
    + by rewrite (position_invalid urls fold.2 p Hp Hge).
  - by rewrite (to_data_idx_error _ _ _ Htrain).
Qed.

Lemma eval_clf_rejects_bad_fold_witness :
  Driver.eval_clf Text.ascii_alnum Sample.domain Sample.rotating 0
    ([0; 1], [7])
    (Reader.data_iter (Driver.reader "pages.pkl" None) None)
    [(0, Text.lit "a.com/1"); (1, Text.lit "a.com/2"); (4, Text.lit "c.net/z")]
    [false; true] Sample.state
  = (Runtime.Raise Runtime.AssertionError, Sample.state).
Proof.
  apply (eval_clf_rejects_bad_fold _ _ _ _ _ _ _ _ _ 7).
  - apply elem_of_app. right. by apply list_elem_of_singleton.
  - simpl. lia.
Defined.

(** X12. When the fold resolves and the file is there, [eval_clf]
    completes; the train ids live in a list object of its own, which
    ends up shuffled twice by [train_clf], and three times for the
    first fold, whose diagnostics shuffle the same list before
    training; every list that existed before and the dataset are left
    as they were. *)
Theorem eval_clf_frame (alnum : Text.codepoint → bool)
    (get_domain : Text.str → Text.str) (oracle : nat → list nat → list nat)
    filename limit flt fold_idx (fold : list nat * list nat) urls classes
    s objs train0 test0 :
  Runtime.files s !! filename = Some objs →
  Resolve.to_data_idx (Z.of_nat <$> fold.1) urls = Runtime.Ok train0 →
  Resolve.to_data_idx (Z.of_nat <$> fold.2) urls = Runtime.Ok test0 →
  let shuffles := if decide (fold_idx = 0) then 3 else 2 in
  ∃ r test s',
    Driver.eval_clf alnum get_domain oracle fold_idx fold
      (Reader.data_iter (Driver.reader filename limit) flt) urls classes s
    = (Runtime.Ok (r, test), s')
    ∧ Runtime.heap s !! r = None
    ∧ Runtime.heap s' !! r
      = Some (Views.shuffled oracle (Runtime.shuffles s) shuffles train0)
    ∧ (∀ r', r' ≠ r → Runtime.heap s' !! r' = Runtime.heap s !! r')
    ∧ Runtime.files s' = Runtime.files s
    ∧ Runtime.shuffles s' = Runtime.shuffles s + shuffles.
Proof.
  intros Hf Htrain Htest shuffles. unfold Driver.eval_clf.
  rewrite bind_run. unfold Resolve.lift at 1. rewrite Htrain.
  rewrite bind_run. unfold Resolve.lift at 1. rewrite Htest.
  rewrite bind_run. unfold Trainer.new_list at 1.
  set (r := fresh (dom (Runtime.heap s))).
  assert (Hfresh : Runtime.heap s !! r = None).
  { apply not_elem_of_dom. apply is_fresh. }
  set (s1 := Runtime.State _ _ _ _).
  rewrite bind_run, (data_iter_ok _ _ _ _ _ objs) by done.
  set (s2 := Views.touch filename s1).
  assert (Hl2 : Runtime.heap s2 !! r = Some train0)
    by (unfold s2, s1; simpl; apply lookup_insert_eq).
  rewrite bind_run.
  destruct (first_fold_diagnostics get_domain oracle filename limit flt
              classes fold_idx r test0
              (Featurizer.get_xy alnum
                 (Reader.yielded_from limit (Views.passed flt (Some test0))
                    0 objs)).2
              s2 objs train0 Hf Hl2)
    as (s3 & -> & Hf3 & Hh3 & Hfr3 & Hs3).
  rewrite bind_run.
  destruct (train_clf_run_full alnum oracle filename limit flt classes r
              Trainer.default_n_epochs Trainer.default_batch_size s3 objs _
              ltac:(by rewrite Hf3) Hh3)
    as (s4 & -> & Hf4 & Hh4 & Hfr4 & Hs4).
  eexists r, _, s4. split; [reflexivity|]. split; [done|].
  unfold shuffles. unfold Trainer.default_n_epochs in *.
  rewrite Hs3 in Hh4, Hs4. unfold s2, s1 in Hfr3, Hh4, Hs4, Hf3. simpl in *.
  split.
  { rewrite Hh4. f_equal. destruct (decide (fold_idx = 0)); simpl.
    - by rewrite Nat.add_1_r.
    - by rewrite Nat.add_0_r. }
  split.
  { intros r' Hr'. rewrite Hfr4, Hfr3 by done. by rewrite lookup_insert_ne. }
  split; [congruence|]. destruct (decide (fold_idx = 0)); lia.
Qed.

Lemma eval_clf_frame_witness :
  ∃ r test s',
    Driver.eval_clf Text.ascii_alnum Sample.domain Sample.rotating 0
      ([0; 1; 3], [2])
      (Reader.data_iter (Driver.reader "pages.pkl" None) None)
      [(0, Text.lit "a.com/1"); (1, Text.lit "a.com/2");
       (4, Text.lit "c.net/z"); (5, Text.lit "b.org/w")]
      [false; true] Sample.state
    = (Runtime.Ok (r, test), s')
    ∧ Runtime.heap s' !! r = Some [0; 1; 5]
    ∧ Runtime.heap s' !! 0 = Some [0; 1; 5].
Proof.
  assert (Hfile : Runtime.files Sample.state !! "pages.pkl"%string
                  = Some Sample.pages) by reflexivity.
  assert (Htrain :
    Resolve.to_data_idx (Z.of_nat <$> [0; 1; 3])
      [(0, Text.lit "a.com/1"); (1, Text.lit "a.com/2");
       (4, Text.lit "c.net/z"); (5, Text.lit "b.org/w")]
    = Runtime.Ok [0; 1; 5]) by (vm_compute; reflexivity).
  assert (Htest :
    Resolve.to_data_idx (Z.of_nat <$> [2])
      [(0, Text.lit "a.com/1"); (1, Text.lit "a.com/2");
       (4, Text.lit "c.net/z"); (5, Text.lit "b.org/w")]
    = Runtime.Ok [4]) by (vm_compute; reflexivity).
  destruct (eval_clf_frame Text.ascii_alnum Sample.domain Sample.rotating
              "pages.pkl" None None 0 ([0; 1; 3], [2]) _
              [false; true] Sample.state Sample.pages [0; 1; 5] [4]
              Hfile Htrain Htest)
    as (r & test & s' & Hrun & Hfresh & Hr & Hframe & _).
  exists r, test, s'. split; [exact Hrun|]. split; [exact Hr|].
  rewrite Hframe; [reflexivity|].
  intros <-. vm_compute in Hfresh. discriminate Hfresh.
Defined.

(** ** More on the resolution of ids and on the report *)

Section ResolveMore.
Import Text Runtime Resolve Views.
Implicit Types urls : list (nat * str).

Lemma numbered_snd {A} (l : list A) : (numbered l).*2 = l.
Proof.
  unfold numbered. rewrite fmap_imap.
  rewrite (imap_ext _ (const id) l) by done.
  by rewrite imap_const, list_fmap_id.
Qed.

Lemma to_data_idx_sublist indices urls r :
  to_data_idx indices urls = Ok r → r `sublist_of` urls.*1.
Proof.
  rewrite to_data_idx_unfold. cbv zeta. case_decide; [|done].
  intros [= <-]. rewrite <- (numbered_snd urls) at 2.
  rewrite <- list_fmap_compose.
  apply fmap_sublist, sublist_filter.
Qed.

Lemma to_data_idx_same_elements (indices indices' : list Z) urls :
  (∀ i, i ∈ indices ↔ i ∈ indices') →
  to_data_idx indices urls = to_data_idx indices' urls.
Proof.
  intros Hsame. rewrite !to_data_idx_unfold. cbv zeta.
  assert (list_to_set indices = (list_to_set indices' : gset Z)) as ->; [|done].
  apply set_eq. intros i. by rewrite !elem_of_list_to_set.
Qed.

Lemma filter_all {A} (l : list A) : filter (λ _, True) l = l.
Proof.
  induction l as [|x l IH]; [done|]. by rewrite filter_cons_True, IH.
Qed.
End ResolveMore.

(** X13. The ids that [to_data_idx] returns come in the order of
    [urls], whatever the order of the request, and requesting the same
    positions in another order or several times gives the same
    result. *)
Theorem to_data_idx_dataset_order (indices indices' : list Z)
    (urls : list (nat * Text.str)) r :
  Resolve.to_data_idx indices urls = Runtime.Ok r →
  (∀ i, i ∈ indices ↔ i ∈ indices') →
  r `sublist_of` urls.*1
  ∧ Resolve.to_data_idx indices' urls = Runtime.Ok r.
Proof.
  intros Hrun Hsame. split; [by apply (to_data_idx_sublist indices)|].
  by rewrite <- (to_data_idx_same_elements indices indices').
Qed.

Lemma to_data_idx_dataset_order_witness :
  Resolve.to_data_idx [2%Z; 0%Z; 2%Z]
    [(0, Text.lit "a.com/1"); (1, Text.lit "a.com/2"); (4, Text.lit "c.net/z")]
  = Runtime.Ok [0; 4].
Proof.
  apply (to_data_idx_dataset_order [0%Z; 2%Z] [2%Z; 0%Z; 2%Z]).
  - vm_compute. reflexivity.
  - intros i. rewrite !elem_of_cons, !elem_of_nil. tauto.
Defined.

(** X14. Requesting every position of [urls] gives back all its
    dataset ids, in order; requesting none gives the empty list. *)
Theorem to_data_idx_all_positions (urls : list (nat * Text.str)) :
  Resolve.to_data_idx (Z.of_nat <$> seq 0 (length urls)) urls
  = Runtime.Ok urls.*1
  ∧ Resolve.to_data_idx [] urls = Runtime.Ok [].
Proof.
  split.
  - pose proof (to_data_idx_positions (λ _, True) urls) as H.
    cbv beta in H. rewrite !filter_all, numbered_fst in H. exact H.
  - pose proof (to_data_idx_positions (λ _, False) urls) as H.
    cbv beta in H.
    assert (Hnone : ∀ A (l : list A), filter (λ _, False) l = []).
    { intros A l. induction l as [|x l IH]; [done|].
      rewrite filter_cons_False; [exact IH|]. by intros []. }
    by rewrite !Hnone in H.
Qed.

Section ReportMore.
Import Text Aggregate Views.
Context {float : Type}.

Lemma values_of_f1 (scores : list (float * float)) :
  values_of (fold_metrics <$> scores) (lit "F1") = scores.*1.
Proof.
  unfold values_of. induction scores as [|sc scores IH]; [done|].
  rewrite !fmap_cons, concat_cons, filter_app, fmap_app, IH. done.
Qed.

Lemma values_of_auc (scores : list (float * float)) :
  values_of (fold_metrics <$> scores) (lit "AUC") = scores.*2.
Proof.
  unfold values_of. induction scores as [|sc scores IH]; [done|].
  rewrite !fmap_cons, concat_cons, filter_app, fmap_app, IH. done.
Qed.

Lemma values_of_other (scores : list (float * float)) k :
  k ≠ lit "F1" → k ≠ lit "AUC" →
  values_of (fold_metrics <$> scores) k = [].
Proof.
  intros H1 H2. unfold values_of.
  induction scores as [|sc scores IH]; [done|].
  rewrite !fmap_cons, concat_cons, filter_app, fmap_app, IH.
  unfold fold_metrics.
  rewrite filter_cons_False by (simpl; congruence).
  rewrite filter_cons_False by (simpl; congruence). done.
Qed.

Lemma collect_f1_auc (sc : float * float) (scores : list (float * float)) :
  collect float (fold_metrics <$> sc :: scores)
  = <[lit "AUC" := (sc :: scores).*2]>
      (<[lit "F1" := (sc :: scores).*1]> ∅).
Proof.
  apply map_eq. intros k.
  destruct (collect float _ !! k) as [vs|] eqn:Hk.
  - apply lookup_collect in Hk as [Hne ->].
    destruct (decide (k = lit "AUC")) as [->|Hauc].
    { by rewrite lookup_insert_eq, values_of_auc. }
    rewrite lookup_insert_ne by done.
    destruct (decide (k = lit "F1")) as [->|Hf1].
    { by rewrite lookup_insert_eq, values_of_f1. }
    by rewrite values_of_other in Hne.
  - symmetry.
    destruct (decide (k = lit "AUC")) as [->|Hauc].
    { assert (collect float (fold_metrics <$> sc :: scores) !! lit "AUC"
              = Some (sc :: scores).*2) as Hsome; [|congruence].
      apply lookup_collect. by rewrite values_of_auc. }
    rewrite lookup_insert_ne by done.
    destruct (decide (k = lit "F1")) as [->|Hf1].
    { assert (collect float (fold_metrics <$> sc :: scores) !! lit "F1"
              = Some (sc :: scores).*1) as Hsome; [|congruence].
      apply lookup_collect. by rewrite values_of_f1. }
    by rewrite lookup_insert_ne, lookup_empty.
Qed.

Lemma sorted_pair (a b : str * list float) l :
  Sorted (key_le float) l → l ≡ₚ [a; b] →
  str_leb b.1 a.1 = false → l = [a; b].
Proof.
  intros Hsorted Hperm Hlt. symmetry in Hperm.
  apply Permutation_length_2_inv in Hperm as [->| ->]; [done|].
  apply Sorted_inv in Hsorted as [_ Hhd].
  apply HdRel_inv in Hhd. unfold key_le in Hhd. congruence.
Qed.
End ReportMore.

(** X15. When every fold reports the mapping [{'F1': f, 'AUC': a}], the
    report has two lines, the one of AUC before the one of F1, each
    over the values of all the folds in order of arrival; and no line
    at all when there is no fold. *)
Theorem report_f1_auc (float : Type) (np_mean np_std : list float → float)
    (fmul : float → float → float) (two : float)
    (scores : list (float * float)) :
  Aggregate.report float np_mean np_std fmul two
    ((λ sc, [(Text.lit "F1", sc.1); (Text.lit "AUC", sc.2)]) <$> scores)
  = match scores with
    | [] => []
    | _ => [(Text.lit "AUC", np_mean scores.*2, fmul (np_std scores.*2) two);
            (Text.lit "F1", np_mean scores.*1, fmul (np_std scores.*1) two)]
    end.
Proof.
  destruct scores as [|sc scores]; [reflexivity|].
  unfold Aggregate.report.
  change (λ sc0 : float * float, [(Text.lit "F1", sc0.1); (Text.lit "AUC", sc0.2)])
    with (@Views.fold_metrics float).
  rewrite collect_f1_auc.
  set (sorted := merge_sort _ _).
  assert (sorted = [(Text.lit "AUC", (sc :: scores).*2);
                    (Text.lit "F1", (sc :: scores).*1)]) as ->;
    [|reflexivity].
  apply sorted_pair.
  - apply Sorted_merge_sort. apply _.
  - unfold sorted. rewrite merge_sort_Permutation.
    rewrite map_to_list_insert by (by rewrite lookup_insert_ne).
    by rewrite map_to_list_insert, map_to_list_empty.
  - reflexivity.
Qed.

(** ** The further properties at the sample dataset *)

Lemma file_reader_exact_witness :
  ∃ items s',
    Reader.file_reader "pages.pkl" None (Some 5%Z) Sample.state
    = (Runtime.Ok items, s')
    ∧ StronglySorted lt (Runtime.idx <$> items).
Proof.
  destruct (file_reader_exact "pages.pkl" None (Some 5%Z) Sample.state
              Sample.pages eq_refl)
    as (items & s' & Hrun & _ & Hsorted).
  by exists items, s'.
Defined.

Lemma file_reader_filtered_pass_witness :
  (Reader.file_reader "pages.pkl" None (Some 0%Z) Sample.state).1
  = Runtime.Ok [].
Proof.
  destruct (file_reader_filtered_pass "pages.pkl" None (Some 0%Z)
              Sample.state Sample.state Sample.pages eq_refl eq_refl)
    as (full & _ & _ & Hzero).
  exact (Hzero 0%Z eq_refl (Z.le_refl 0)).
Defined.

Lemma language_filter_selects_witness :
  ∃ flt s1 items s2,
    Reader.get_lang_indices (Driver.reader "pages.pkl" None)
      (Text.lit "en") Sample.state = (Runtime.Ok flt, s1)
    ∧ Reader.data_iter (Driver.reader "pages.pkl" None) (Some flt) None s1
      = (Runtime.Ok items, s2).
Proof.
  destruct (language_filter_selects "pages.pkl" None (Text.lit "en")
              Sample.state Sample.pages eq_refl)
    as (all & flt & s1 & items & s2 & _ & Hlang & Hdata & _).
  by exists flt, s1, items, s2.
Defined.

Lemma data_iter_ignores_order_witness :
  ∃ items s',
    Reader.data_iter (Driver.reader "pages.pkl" None) None (Some [5; 0; 1])
      Sample.state = (Runtime.Ok items, s')
    ∧ Reader.data_iter (Driver.reader "pages.pkl" None) None
        (Some [0; 1; 5; 5]) Sample.state = (Runtime.Ok items, s').
Proof.
  destruct (data_iter_ignores_order "pages.pkl" None None [5; 0; 1]
              [0; 1; 5; 5] Sample.state Sample.pages eq_refl)
    as (items & s' & Hrun & Hrun' & _).
  - intros i. rewrite !elem_of_cons, !elem_of_nil. tauto.
  - by exists items, s'.
Defined.

Lemma urls_round_trip_witness :
  ∃ it s3,
    Reader.data_iter (Driver.reader "pages.pkl" None)
      (Views.language_filter None (Text.lit "en") Sample.pages)
      (Some [4]) Sample.state = (Runtime.Ok [it], s3)
    ∧ Runtime.idx it = 4 ∧ Runtime.url it = Text.lit "c.net/z".
Proof.
  eapply (urls_round_trip "pages.pkl" (Text.lit "en") None Sample.state).
  - vm_compute. reflexivity.
  - reflexivity.
  - do 2 (apply elem_of_cons; right). apply elem_of_cons. left. reflexivity.
Defined.

Lemma fold_train_test_complement_witness : 1 ∉ [4; 5].
Proof.
  set (urls := Views.retained_urls None (Text.lit "en") Sample.pages).
  set (folds := (λ f, (Views.train_ids Sample.domain Sample.assign urls f,
                       Views.test_ids Sample.domain Sample.assign urls f))
                  <$> seq 0 2).
  assert (Hmain :
    Driver.main_folds Sample.domain Sample.assign "pages.pkl"
      (Text.lit "en") None 2 Sample.state
    = (Runtime.Ok (Views.language_filter None (Text.lit "en") Sample.pages,
                   urls, folds),
       (Driver.main_folds Sample.domain Sample.assign "pages.pkl"
          (Text.lit "en") None 2 Sample.state).2))
    by (vm_compute; reflexivity).
  assert (Hfold : folds !! 1 = Some ([0; 1], [4; 5]))
    by (vm_compute; reflexivity).
  apply (proj2 (fold_train_test_complement _ _ _ _ _ _ _ _ _ _ _ _ _ _
                  Hmain Hfold) 1).
  apply elem_of_cons. right. apply elem_of_cons. by left.
Defined.

(** ** Counters and the domain statistics *)

Section CounterFacts.
Import Stats.
Context {K : Type} `{EqDecision K}.
Implicit Types c : list (K * nat).

Lemma counter_get_add c k n k' :
  counter_get (counter_add c k n) k'
  = counter_get c k' + (if decide (k = k') then n else 0).
Proof.
  induction c as [|[k0 m] c IH]; simpl.
  - by destruct (decide (k = k')).
  - destruct (decide (k0 = k)) as [->|Hk0]; simpl.
    + destruct (decide (k = k')); [done|lia].
    + destruct (decide (k0 = k')) as [->|Hk0'].
      * rewrite decide_False by done. lia.
      * apply IH.
Qed.

Lemma elem_of_counter_add_keys c k n k' :
  k' ∈ (counter_add c k n).*1 ↔ k' = k ∨ k' ∈ c.*1.
Proof.
  induction c as [|[k0 m] c IH]; simpl.
  - rewrite list_elem_of_singleton, elem_of_nil. tauto.
  - destruct (decide (k0 = k)) as [->|Hk0]; csimpl.
    + rewrite !elem_of_cons. tauto.
    + rewrite !elem_of_cons, IH. tauto.
Qed.

Lemma counter_add_NoDup c k n :
  NoDup c.*1 → NoDup (counter_add c k n).*1.
Proof.
  induction c as [|[k0 m] c IH]; simpl.
  - intros _. apply NoDup_singleton.
  - csimpl. intros [Hk0 Hnd]%NoDup_cons.
    destruct (decide (k0 = k)) as [->|Hne]; csimpl.
    + by apply NoDup_cons.
    + apply NoDup_cons. split; [|by apply IH].
      rewrite elem_of_counter_add_keys. intros [?|?]; done.
Qed.

Lemma total_where_cons (P : K → Prop) `{!∀ k, Decision (P k)} e c :
  total_where P (e :: c)
  = (if decide (P e.1) then e.2 else 0) + total_where P c.
Proof.
  unfold total_where. rewrite filter_cons.
  destruct (decide (P e.1)); done.
Qed.

Lemma total_where_add (P : K → Prop) `{!∀ k, Decision (P k)} c k n :
  total_where P (counter_add c k n)
  = total_where P c + (if decide (P k) then n else 0).
Proof.
  induction c as [|[k0 m] c IH]; cbn [counter_add].
  - rewrite total_where_cons. unfold total_where. simpl. lia.
  - destruct (decide (k0 = k)) as [->|Hne].
    + rewrite !total_where_cons. simpl. destruct (decide (P k)); lia.
    + rewrite !total_where_cons, IH. lia.
Qed.

Lemma counter_get_NoDup c k n :
  NoDup c.*1 → (k, n) ∈ c → counter_get c k = n.
Proof.
  induction c as [|[k0 m] c IH]; [by intros _ ?%elem_of_nil|].
  csimpl. intros [Hk0 Hnd]%NoDup_cons [[= -> ->]|Hin]%elem_of_cons.
  - by rewrite decide_True.
  - rewrite decide_False; [by apply IH|].
    intros ->. apply Hk0. apply list_elem_of_fmap. by exists (k, n).
Qed.

(** [Counter(iterable)] counts the occurrences. *)
Lemma counter_of_foldl (l : list K) c :
  let c' := foldl (λ c k, counter_add c k 1) c l in
  (∀ k, counter_get c' k
        = counter_get c k + length (filter (λ x, x = k) l))
  ∧ (∀ (P : K → Prop) (HP : ∀ k, Decision (P k)),
       total_where P c' = total_where P c + length (filter P l))
  ∧ (NoDup c.*1 → NoDup c'.*1)
  ∧ (∀ k, k ∈ c'.*1 ↔ k ∈ c.*1 ∨ k ∈ l).
Proof.
  revert c. induction l as [|x l IH]; intros c; cbn [foldl].
  - cbv zeta. split; [intros; simpl; lia|]. split; [intros; simpl; lia|].
    split; [done|]. intros k. rewrite elem_of_nil. tauto.
  - destruct (IH (counter_add c x 1)) as (Hget & Htotal & Hnd & Hkeys).
    cbv zeta. split; [|split; [|split]].
    + intros k. rewrite Hget, counter_get_add, filter_cons.
      destruct (decide (x = k)); simpl; lia.
    + intros P HP. rewrite Htotal, total_where_add, filter_cons.
      destruct (decide (P x)); simpl; lia.
    + intros Hc. by apply Hnd, counter_add_NoDup.
    + intros k. rewrite Hkeys, elem_of_counter_add_keys, elem_of_cons. tauto.
Qed.

Lemma insert_by_count_Permutation (x : K * nat) c :
  insert_by_count x c ≡ₚ x :: c.
Proof.
  induction c as [|y c IH]; simpl; [done|].
  destruct (decide (y.2 ≤ x.2)); [done|].
  by rewrite IH, Permutation_swap.
Qed.

Lemma sorted_by_count_Permutation c : foldr insert_by_count [] c ≡ₚ c.
Proof.
  induction c as [|x c IH]; simpl; [done|].
  by rewrite insert_by_count_Permutation, IH.
Qed.

Lemma insert_by_count_sorted (x : K * nat) c :
  StronglySorted (λ a b : K * nat, b.2 ≤ a.2) c →
  StronglySorted (λ a b : K * nat, b.2 ≤ a.2) (insert_by_count x c).
Proof.
  induction 1 as [|y c Hc IH Hy]; simpl.
  - repeat constructor.
  - destruct (decide (y.2 ≤ x.2)) as [Hle|Hgt].
    + constructor; [by constructor|].
      constructor; [done|].
      eapply Forall_impl; [exact Hy|]. simpl. intros z Hz. lia.
    + constructor; [done|].
      rewrite insert_by_count_Permutation. constructor; [lia|done].
Qed.

Lemma sorted_by_count_sorted c :
  StronglySorted (λ a b : K * nat, b.2 ≤ a.2) (foldr insert_by_count [] c).
Proof.
  induction c as [|x c IH]; simpl; [constructor|].
  by apply insert_by_count_sorted.
Qed.

Lemma StronglySorted_take {A} (R : relation A) n (l : list A) :
  StronglySorted R l → StronglySorted R (take n l).
Proof.
  intros Hl. revert n. induction Hl as [|x l Hl IH Hx]; intros [|n]; simpl;
    try constructor; [apply IH|].
  eapply Forall_forall. intros y Hy.
  apply (proj1 (Forall_forall _ _) Hx).
  eapply elem_of_sublist; [exact Hy|apply sublist_take].
Qed.
End CounterFacts.

Section DomainStats.
Import Text Runtime Reader Driver Stats Views.
Variable get_domain : str → str.

Local Abbreviation key := (λ it : item, (get_domain (url it), status it)).

(** The loop that sums the counts of a domain over its statuses. *)
Lemma domain_counts_foldl (entries : list (str * Z * nat))
    (dc : list (str * nat)) :
  let dc' := foldl (λ domain_counts e, counter_add domain_counts e.1.1 e.2)
                   dc entries in
  (∀ d, counter_get dc' d
        = counter_get dc d + total_where (λ k : str * Z, k.1 = d) entries)
  ∧ (NoDup dc.*1 → NoDup dc'.*1)
  ∧ (∀ d, d ∈ dc'.*1 ↔ d ∈ dc.*1 ∨ ∃ e, e ∈ entries ∧ e.1.1 = d).
Proof.
  revert dc. induction entries as [|e entries IH]; intros dc; cbn [foldl].
  - cbv zeta. split; [intros; unfold total_where; simpl; lia|].
    split; [done|]. intros d. split; [by left|].
    intros [?|(e & ?%elem_of_nil & _)]; done.
  - destruct (IH (counter_add dc e.1.1 e.2)) as (Hget & Hnd & Hkeys).
    cbv zeta. split; [|split].
    + intros d. rewrite Hget, counter_get_add, total_where_cons.
      destruct (decide (e.1.1 = d)); lia.
    + intros Hdc. by apply Hnd, counter_add_NoDup.
    + intros d. rewrite Hkeys, elem_of_counter_add_keys. split.
      * intros [[->|?]|(e' & He' & Hd)]; [right|by left|right].
        -- exists e. split; [left|done].
        -- exists e'. split; [by right|done].
      * intros [?|(e' & [->|He']%elem_of_cons & Hd)].
        -- left. by right.
        -- left. by left.
        -- right. by exists e'.
Qed.

Lemma length_filter_fmap {A B} (f : A → B) (P : B → Prop)
    `{!∀ y, Decision (P y)} (l : list A) :
  length (filter P (f <$> l)) = length (filter (λ x, P (f x)) l).
Proof.
  induction l as [|x l IH]; [done|].
  rewrite fmap_cons, !filter_cons.
  destruct (decide (P (f x))); simpl; by rewrite IH.
Qed.

(** Items of status 200 or 404 only: the count of a domain is the sum
    of its two status counts. *)
Lemma domain_count_split (items : list item) d :
  Forall (λ it, status_ok it = true) items →
  length (filter (λ it, get_domain (url it) = d) items)
  = length (filter (λ it, key it = (d, 200%Z)) items)
    + length (filter (λ it, key it = (d, 404%Z)) items).
Proof.
  induction 1 as [|it items Hit _ IH]; [done|].
  rewrite !filter_cons. apply status_ok_spec in Hit.
  destruct (decide (get_domain (url it) = d)) as [Hd|Hd].
  - destruct Hit as [Hs|Hs].
    + rewrite decide_True by (by rewrite <- Hd, <- Hs).
      rewrite decide_False by (intros [= _ Hs']; lia). simpl. lia.
    + rewrite decide_False by (intros [= _ Hs']; lia).
      rewrite decide_True by (by rewrite <- Hd, <- Hs). simpl. lia.
  - rewrite !decide_False by (by intros [= ? _]). done.
Qed.

Lemma yielded_from_status_ok limit indices k objs :
  Forall (λ it, status_ok it = true) (yielded_from limit indices k objs).
Proof.
  apply Forall_forall.
  by intros it (i & raw & _ & -> & _ & _ & Hs)%elem_of_yielded_from.
Qed.
End DomainStats.

(** X16. Over a file that is there, [show_domain_stat] reports the
    number of distinct domains of the items read and prints at most 20
    lines, one per domain and no domain twice, by decreasing count; on
    each line the count is the number of items of that domain, the two
    status counts are the numbers of its items of status 200 and 404,
    and the count is their sum and is positive. *)
Theorem show_domain_stat_rows (get_domain : Text.str → Text.str)
    filename limit s objs :
  Runtime.files s !! filename = Some objs →
  ∃ items n rows s',
    (Driver.reader filename limit None s).1 = Runtime.Ok items
    ∧ Stats.show_domain_stat get_domain (Driver.reader filename limit) s
      = (Runtime.Ok (n, rows), s')
    ∧ n = length (remove_dups ((λ it, get_domain (Runtime.url it)) <$> items))
    ∧ length rows = n `min` 20
    ∧ (∀ d c c200 c404, (d, c, c200, c404) ∈ rows →
         c = length (filter (λ it, get_domain (Runtime.url it) = d) items)
         ∧ c200 = length (filter (λ it, get_domain (Runtime.url it) = d
                                        ∧ Runtime.status it = 200%Z) items)
         ∧ c404 = length (filter (λ it, get_domain (Runtime.url it) = d
                                        ∧ Runtime.status it = 404%Z) items)
         ∧ c = c200 + c404 ∧ 0 < c)
    ∧ StronglySorted (λ a b, b ≤ a)
        ((λ row : Text.str * nat * nat * nat, row.1.1.2) <$> rows)
    ∧ NoDup ((λ row : Text.str * nat * nat * nat, row.1.1.1) <$> rows).
Proof.
  intros Hf.
  set (items := Reader.yielded_from limit None 0 objs).
  set (key := λ it : Runtime.item,
                (get_domain (Runtime.url it), Runtime.status it)).
  set (dsc := Stats.counter_of (key <$> items)).
  set (dc := foldl (λ domain_counts (e : Text.str * Z * nat),
                      Stats.counter_add domain_counts e.1.1 e.2) [] dsc).
  set (sorted := foldr Stats.insert_by_count [] dc).
  set (rows := (λ e : Text.str * nat,
                  (e.1, e.2, Stats.counter_get dsc (e.1, 200%Z),
                   Stats.counter_get dsc (e.1, 404%Z)))
                 <$> take 20 sorted).
  exists items, (length dc), rows, (Views.touch filename s).
  split; [unfold Driver.reader; by rewrite (file_reader_ok _ _ _ _ _ Hf)|].
  split.
  { unfold Stats.show_domain_stat. rewrite bind_run. unfold Driver.reader.
    rewrite (file_reader_ok _ _ _ _ _ Hf). reflexivity. }
  destruct (counter_of_foldl (key <$> items) [])
    as (Hget & _ & _ & Hkeys).
  destruct (counter_of_foldl (key <$> items) []) as (_ & Htotal & _).
  destruct (domain_counts_foldl dsc []) as (Hdget & Hdnd & Hdkeys).
  fold dsc in Hget, Htotal, Hkeys. fold dc in Hdget, Hdnd, Hdkeys.
  cbv zeta in *.
  assert (Hnd : NoDup dc.*1) by (apply Hdnd; constructor).
  assert (Hperm : sorted ≡ₚ dc) by apply sorted_by_count_Permutation.
  assert (Hdomain : ∀ d, d ∈ dc.*1 ↔ ∃ it, it ∈ items
                                      ∧ get_domain (Runtime.url it) = d).
  { intros d. rewrite Hdkeys. split.
    - intros [?%elem_of_nil|(e & He & Hd)]; [done|].
      assert (e.1 ∈ dsc.*1) as Hk by (by apply list_elem_of_fmap_2).
      apply Hkeys in Hk as [?%elem_of_nil|Hk]; [done|].
      apply list_elem_of_fmap in Hk as (it & Hit & Hin).
      exists it. split; [done|]. by rewrite <- Hd, Hit.
    - intros (it & Hit & Hd). right.
      assert (key it ∈ dsc.*1) as Hk.
      { apply Hkeys. right. by apply list_elem_of_fmap_2. }
      apply list_elem_of_fmap in Hk as (e & He & Hin).
      exists e. split; [done|]. by rewrite <- He. }
  assert (Hcount : ∀ d, Stats.counter_get dc d
            = length (filter (λ it, get_domain (Runtime.url it) = d) items)).
  { intros d. rewrite Hdget, (Htotal (λ k : Text.str * Z, k.1 = d) _).
    unfold Stats.total_where at 1. simpl.
    rewrite (length_filter_fmap key (λ k : Text.str * Z, k.1 = d)).
    reflexivity. }
  assert (Hstatus : ∀ d st, Stats.counter_get dsc (d, st)
            = length (filter (λ it, get_domain (Runtime.url it) = d
                                    ∧ Runtime.status it = st) items)).
  { intros d st. rewrite Hget. simpl.
    rewrite (length_filter_fmap key (λ k, k = (d, st))). f_equal.
    apply list_filter_iff. intros it. unfold key. split.
    - by intros [= -> ->].
    - by intros [-> ->]. }
  split.
  { rewrite <- (length_fmap fst dc). apply Permutation_length.
    apply NoDup_Permutation; [done|apply NoDup_remove_dups|].
    intros d. rewrite Hdomain, elem_of_remove_dups, list_elem_of_fmap.
    split; intros (it & ? & ?); by exists it. }
  split.
  { unfold rows. rewrite length_fmap, length_take.
    rewrite (Permutation_length Hperm). lia. }
  split.
  { intros d c c200 c404 (e & [= -> -> -> ->] & He)%list_elem_of_fmap.
    apply (elem_of_sublist _ sorted) in He; [|apply sublist_take].
    rewrite Hperm in He. destruct e as [d c]. simpl.
    rewrite <- (counter_get_NoDup dc d c Hnd He), Hcount, !Hstatus.
    split; [done|]. split; [done|]. split; [done|].
    assert (Hsplit := domain_count_split get_domain items d
                        (yielded_from_status_ok limit None 0 objs)).
    assert (Hkey : ∀ st,
      length (filter (λ it, get_domain (Runtime.url it) = d
                            ∧ Runtime.status it = st) items)
      = length (filter (λ it, key it = (d, st)) items)).
    { intros st. f_equal. apply list_filter_iff. intros it. unfold key.
      split; [by intros [-> ->]|by intros [= -> ->]]. }
    rewrite !Hkey. split; [exact Hsplit|].
    assert (d ∈ dc.*1) as Hd
      by (apply list_elem_of_fmap; by exists (d, c)).
    apply Hdomain in Hd as (it & Hit & Hd).
    assert (it ∈ filter (λ it, get_domain (Runtime.url it) = d) items) as Hin
      by (by apply list_elem_of_filter).
    destruct (filter _ items); [by apply elem_of_nil in Hin|simpl; lia]. }
  split.
  { unfold rows. rewrite <- list_fmap_compose.
    apply (StronglySorted_fmap _ (λ a b : Text.str * nat, b.2 ≤ a.2));
      [done|].
    apply StronglySorted_take, sorted_by_count_sorted. }
  unfold rows. rewrite <- list_fmap_compose.
  change (NoDup (take 20 sorted).*1).
  eapply sublist_NoDup; [|apply fmap_sublist, sublist_take].
  by rewrite Hperm.
Qed.

Lemma show_domain_stat_rows_witness :
  ∃ s',
    Stats.show_domain_stat Sample.domain (Driver.reader "pages.pkl" None)
      Sample.state
    = (Runtime.Ok (3, [(Text.lit "a.com", 2, 1, 1);
                       (Text.lit "b.org", 2, 2, 0);
                       (Text.lit "c.net", 1, 0, 1)]), s').
Proof.
  destruct (show_domain_stat_rows Sample.domain "pages.pkl" None
              Sample.state Sample.pages eq_refl)
    as (items & n & rows & s' & _ & Hrun & _).
  exists s'. rewrite Hrun. f_equal.
  assert (Hval :
    (Stats.show_domain_stat Sample.domain (Driver.reader "pages.pkl" None)
       Sample.state).1
    = Runtime.Ok (3, [(Text.lit "a.com", 2, 1, 1);
                      (Text.lit "b.org", 2, 2, 0);
                      (Text.lit "c.net", 1, 0, 1)]))
    by (vm_compute; reflexivity).
  rewrite Hrun in Hval. exact Hval.
Defined.
